(** * Sorting benchmark engine of [task_3.py]: embedding and verification

    The Python program generates integer datasets, sorts them with three
    algorithms, times the sorts with [timeit] and derives growth ratios.

    Conventions of the embedding:
    - Python lists are mutable objects passed by reference, so there is an
      explicit heap of list objects, and every function of the source that
      touches a list is a computation over that heap;
    - Python exceptions are explicit outcomes;
    - Python integers are [Z]; list elements, sizes and repeat counts are
      integers, list indices and loop counters that the source keeps
      non-negative are [nat];
    - Python floats are IEEE 754 binary64 numbers ([spec_float]);
    - the clock is an arbitrary sequence of readings, and a trace records
      what the timing harness does between two readings;
    - [random.Random], [timeit.Timer], [sorted] and [min] belong to Python's
      standard library: they are written here from their documented
      behaviour.

    The module [task_2] embeds the Koch snowflake of [task_2.py]: the calls
    on the [turtle] module are kept in a log, in order, and the recursion
    runs within a given number of frames. *)

From stdpp Require Import gmap strings list fin_maps sorting pretty.
From Stdlib Require Import ZArith Floats.SpecFloat.

Open Scope Z_scope.

(** ** Outcomes and the state monad *)

(** The exceptions the program can raise. *)
Inductive exn := IndexError | ValueError | ZeroDivisionError.

(** The result of running a piece of Python: a value, a raised exception, or
    [Stuck].  [Stuck] is not a Python behaviour: it marks a run of the model
    that used up its recursion budget or followed a reference to no object.
    The theorems show that it never arises. *)
Inductive outcome (A : Type) :=
  | Ok (a : A)
  | Raise (e : exn)
  | Stuck.
Arguments Ok {A} a.
Arguments Raise {A} e.
Arguments Stuck {A}.

#[global] Instance outcome_ret : MRet outcome := λ A a, Ok a.
#[global] Instance outcome_bind : MBind outcome := λ A B f m,
  match m with
  | Ok a => f a
  | Raise e => Raise e
  | Stuck => Stuck
  end.

(** Computations over a state [S] that may raise. *)
Definition St (S A : Type) : Type := S → outcome (A * S).

#[global] Instance St_ret {S} : MRet (St S) := λ A a s, Ok (a, s).
#[global] Instance St_bind {S} : MBind (St S) := λ A B f m s,
  match m s with
  | Ok (a, s') => f a s'
  | Raise e => Raise e
  | Stuck => Stuck
  end.

Definition raise {S A} (e : exn) : St S A := λ _, Raise e.
Definition stuck {S A} : St S A := λ _, Stuck.

(** An outcome computed without touching the state. *)
Definition pure_outcome {S A} (o : outcome A) : St S A := λ s,
  match o with
  | Ok a => Ok (a, s)
  | Raise e => Raise e
  | Stuck => Stuck
  end.

(** [for x in xs: body(x)]. *)
Fixpoint for_ {S X} (xs : list X) (body : X → St S ()) : St S () :=
  match xs with
  | [] => mret ()
  | x :: xs' => body x;; for_ xs' body
  end.

(** A [for] loop whose body updates a local variable [acc]. *)
Fixpoint for_acc {S X B} (xs : list X) (acc : B) (body : B → X → St S B) : St S B :=
  match xs with
  | [] => mret acc
  | x :: xs' => acc' ← body acc x; for_acc xs' acc' body
  end.

(** [range(lo, hi)]. *)
Definition range (lo hi : nat) : list nat := seq lo (hi - lo).

(** ** The heap of list objects *)

Definition loc := positive.
Abbreviation heap := (gmap loc (list Z)).
Abbreviation M := (St heap).

(** A new list object holding [l]. *)
Definition alloc (l : list Z) : M loc := λ h,
  let r := fresh (dom h) in Ok (r, <[r:=l]> h).

Definition load (r : loc) : M (list Z) := λ h,
  match h !! r with
  | Some l => Ok (l, h)
  | None => Stuck
  end.

Definition store (r : loc) (l : list Z) : M () := λ h,
  match h !! r with
  | Some _ => Ok ((), <[r:=l]> h)
  | None => Stuck
  end.

(** [len(a)]. *)
Definition len (a : loc) : M nat := l ← load a; mret (length l).

(** [a[i]] for an index [i >= 0]; out of range raises [IndexError]. *)
Definition getitem (a : loc) (i : nat) : M Z :=
  l ← load a;
  match l !! i with
  | Some x => mret x
  | None => raise IndexError
  end.

(** [a[i] = x] for an index [i >= 0]; out of range raises [IndexError]. *)
Definition setitem (a : loc) (i : nat) (x : Z) : M () :=
  l ← load a;
  if bool_decide (i < length l)%nat then store a (<[i:=x]> l) else raise IndexError.

(** [a.append(x)]. *)
Definition append (a : loc) (x : Z) : M () := l ← load a; store a (l ++ [x]).

(** [a.extend(b)]. *)
Definition extend (a b : loc) : M () :=
  l ← load a; l2 ← load b; store a (l ++ l2).

(** [a[lo:]] for [0 <= lo]: a new list; a bound past the end gives the empty
    list. *)
Definition slice_from (a : loc) (lo : nat) : M loc := l ← load a; alloc (drop lo l).

(** [a[:hi]] for [0 <= hi]: a new list; a bound past the end gives the whole
    list. *)
Definition slice_to (a : loc) (hi : nat) : M loc := l ← load a; alloc (take hi l).

(** [a[:]]: a new list with the same elements. *)
Definition copy (a : loc) : M loc := l ← load a; alloc l.

(** ** Sorting algorithms *)

(** The [while j >= 0 and key < a[j]] loop of [insertion_sort].  The counter
    [k] is [j + 1], so [j >= 0] is [k = S j]; the loop returns the final
    [j + 1].  [and] does not evaluate [a[j]] when [j < 0]. *)
Fixpoint insertion_while (a : loc) (key : Z) (k : nat) : M nat :=
  match k with
  | O => mret O
  | S j =>
      aj ← getitem a j;
      if bool_decide (key < aj) then
        setitem a (S j) aj;; insertion_while a key j
      else mret (S j)
  end.

Definition insertion_body (a : loc) (i : nat) : M () :=
  key ← getitem a i;
  k ← insertion_while a key i;
  setitem a k key.

Definition insertion_sort (lst : loc) : M loc :=
  a ← copy lst;
  n ← len a;
  for_ (range 1 n) (insertion_body a);;
  mret a.

(** The [while i < len(left) and j < len(right)] loop of [_merge].  Each turn
    advances [i] or [j], so [len(left) + len(right)] turns are enough; [fuel]
    counts them down.  The loop returns the final [(i, j)]. *)
Fixpoint merge_while (fuel : nat) (left right res : loc) (i j : nat) : M (nat * nat) :=
  nl ← len left;
  nr ← len right;
  if bool_decide (i < nl)%nat && bool_decide (j < nr)%nat then
    match fuel with
    | O => stuck
    | S fuel' =>
        x ← getitem left i;
        y ← getitem right j;
        if bool_decide (x ≤ y) then
          append res x;; merge_while fuel' left right res (S i) j
        else
          append res y;; merge_while fuel' left right res i (S j)
    end
  else mret (i, j).

Definition _merge (left right : loc) : M loc :=
  res ← alloc [];
  nl ← len left;
  nr ← len right;
  '(i, j) ← merge_while (nl + nr) left right res 0 0;
  (if bool_decide (i < nl)%nat then t ← slice_from left i; extend res t else mret ());;
  (if bool_decide (j < nr)%nat then t ← slice_from right j; extend res t else mret ());;
  mret res.

(** [merge_sort], with the depth of the recursion bounded by [fuel].  The
    arguments of [_merge] are evaluated left to right. *)
Fixpoint merge_sort_rec (fuel : nat) (arr : loc) : M loc :=
  match fuel with
  | O => stuck
  | S fuel' =>
      a ← copy arr;
      n ← len a;
      if bool_decide (n ≤ 1)%nat then mret a
      else
        let mid := (n / 2)%nat in
        l ← slice_to a mid;
        l' ← merge_sort_rec fuel' l;
        r ← slice_from a mid;
        r' ← merge_sort_rec fuel' r;
        _merge l' r'
  end.

(** The recursion of [merge_sort] on a list of length [n] is never deeper
    than [n + 1] calls (see [merge_sort_rec_run]); that is the budget. *)
Definition merge_sort (arr : loc) : M loc :=
  n ← len arr; merge_sort_rec (S n) arr.

(** Python's built-in [sorted] on a list of integers: the elements in
    ascending order.  The built-in is not code of the program; on integers its
    result is determined by its contract (see [sorted_unique]), so it is
    written here as the simplest function that meets it. *)
Fixpoint insert_ascending (x : Z) (l : list Z) : list Z :=
  match l with
  | [] => [x]
  | y :: l' => if bool_decide (x ≤ y) then x :: l else y :: insert_ascending x l'
  end.

Definition sorted_list (l : list Z) : list Z := foldr insert_ascending [] l.

(** [sorted(arr)]: a new list. *)
Definition sorted (arr : loc) : M loc := l ← load arr; alloc (sorted_list l).

Definition timsort (arr : loc) : M loc := sorted arr.

(** The dictionary [ALGORITHMS], in insertion order (the order [items()]
    yields). *)
Definition ALGORITHMS : list (string * (loc → M loc)) :=
  [ ("Insertion", insertion_sort);
    ("Merge", merge_sort);
    ("Timsort (built-in)", timsort) ]%string.

(** ** Dataset generation *)

(** [random.Random]: the generator is not code of the program.  The model
    keeps what the program relies on: a generator is built from a seed, and
    a draw below [n > 0] returns a number in [0, n) and the next state. *)
Class PRNG := {
  rng_state : Type;
  rng_seed : Z → rng_state;
  rng_below : nat → rng_state → nat * rng_state;
  rng_below_lt : ∀ n s, (0 < n)%nat → ((rng_below n s).1 < n)%nat
}.

(** A small linear congruential generator, used to run the model on
    concrete inputs. *)
#[global] Program Instance lcg : PRNG := {|
  rng_state := N;
  rng_seed := λ seed, Z.to_N (Z.abs seed);
  rng_below := λ n s, (N.to_nat (s mod N.of_nat n), (s * 1103515245 + 12345) mod 2147483648)%N
|}.
Next Obligation.
  intros n s Hn. simpl.
  pose proof (N.mod_upper_bound s (N.of_nat n)). lia.
Qed.

Section Dataset.
Context {rng : PRNG}.

(** [rnd.randrange(n)]: [ValueError] on an empty range ([n <= 0]); the
    number drawn is not negative. *)
Definition randrange (n : Z) (rnd : rng_state) : outcome (nat * rng_state) :=
  if bool_decide (0 < n) then Ok (rng_below (Z.to_nat n) rnd) else Raise ValueError.

(** [rnd.randint(a, b)] is [a + randrange(b - a + 1)]. *)
Definition randint (a b : Z) (rnd : rng_state) : outcome (Z * rng_state) :=
  '(k, rnd') ← randrange (b - a + 1) rnd;
  Ok (a + Z.of_nat k, rnd').

(** [list(range(n))]: empty for [n <= 0]. *)
Definition int_range (n : Z) : list Z := Z.of_nat <$> range 0 (Z.to_nat n).

(** [list(range(n, 0, -1))]: [n, n - 1, ..., 1], empty for [n <= 0]. *)
Definition int_range_down (n : Z) : list Z := Z.of_nat <$> rev (range 1 (S (Z.to_nat n))).

(** [[rnd.randint(0, 1_000_000) for _ in range(n)]], for a [range] of [n]
    turns. *)
Fixpoint random_list (n : nat) (rnd : rng_state) : outcome (list Z) :=
  match n with
  | O => Ok []
  | S n' =>
      '(x, rnd') ← randint 0 1000000 rnd;
      xs ← random_list n' rnd';
      Ok (x :: xs)
  end.

(** The [for _ in range(swaps)] loop of the [nearly_sorted] branch.  In
    [a[i], a[j] = a[j], a[i]] the right-hand side is read first ([a[j]], then
    [a[i]]), then [a[i]] and [a[j]] are assigned in that order. *)
Fixpoint swap_loop (swaps : nat) (a : loc) (n : Z) (rnd : rng_state) : M rng_state :=
  match swaps with
  | O => mret rnd
  | S swaps' =>
      '(i, rnd1) ← pure_outcome (randrange n rnd);
      '(j, rnd2) ← pure_outcome (randrange n rnd1);
      x ← getitem a j;
      y ← getitem a i;
      setitem a i x;;
      setitem a j y;;
      swap_loop swaps' a n rnd2
  end.

(** [n // 100] is the floor division, [range] of a number that is not
    positive is empty. *)
Definition make_dataset (n : Z) (pattern : string) (seed : Z) : M loc :=
  let rnd := rng_seed seed in
  if bool_decide (pattern = "random"%string) then
    xs ← pure_outcome (random_list (Z.to_nat n) rnd); alloc xs
  else if bool_decide (pattern = "sorted"%string) then
    alloc (int_range n)
  else if bool_decide (pattern = "reversed"%string) then
    alloc (int_range_down n)
  else if bool_decide (pattern = "nearly_sorted"%string) then
    a ← alloc (int_range n);
    let swaps := Z.max 1 (n / 100) in
    swap_loop (Z.to_nat swaps) a n rnd;;
    mret a
  else raise ValueError.

End Dataset.

(** What a caller sees of a call that returns a list: the elements of the
    returned list, or the exception. *)
Definition observe (o : outcome (loc * heap)) : outcome (list Z) :=
  '(r, h) ← o;
  match h !! r with
  | Some l => Ok l
  | None => Stuck
  end.

(** Running a function on a list given by value, in an empty heap. *)
Definition run_sort (f : loc → M loc) (l : list Z) : outcome (list Z) :=
  observe ((arr ← alloc l; f arr) ∅).

(** ** Floating-point durations *)

(** Python's [float] is IEEE 754 binary64. *)
Abbreviation float := spec_float.
Definition nan : float := S754_nan.
Definition fzero : float := S754_zero false.
Definition fsub (x y : float) : float := SFsub 53 1024 x y.
Definition flt (x y : float) : bool := SFltb x y.
Definition is_nan (x : float) : bool :=
  match x with
  | S754_nan => true
  | _ => false
  end.

(** A finite number other than zero. *)
Definition is_nonzero_finite (x : float) : bool :=
  match x with
  | S754_finite _ _ _ => true
  | _ => false
  end.

(** [x / y] on floats: Python raises [ZeroDivisionError] when [y == 0.0]
    (either sign of zero), and divides as IEEE 754 does otherwise. *)
Definition truediv (x y : float) : outcome float :=
  if SFeqb y fzero then Raise ZeroDivisionError else Ok (SFdiv 53 1024 x y).

(** The built-in [min] on a list: [ValueError] on an empty list; otherwise
    the first element, replaced by each later element that is [<] the one
    held. *)
Definition min_step (cur item : float) : float := if flt item cur then item else cur.
Definition py_min (xs : list float) : outcome float :=
  match xs with
  | [] => Raise ValueError
  | x :: xs' => Ok (foldl min_step x xs')
  end.

(** ** Timing *)

(** What the harness does, in order: instrumentation of the model, invisible
    to the program.  [EvTimer t] is a reading [t] of the clock, [EvCopy src
    dst] the evaluation of [src[:]] into the new list [dst], [EvCall arg] the
    call of the timed function on [arg]. *)
Inductive event :=
  | EvTimer (t : float)
  | EvCopy (src dst : loc)
  | EvCall (arg : loc).

(** The heap together with the clock.  [w_clock k] is what the [k]-th
    reading of [time.perf_counter] returns in this run; [w_reads] counts the
    readings made so far. *)
Record world := World {
  w_heap : heap;
  w_clock : nat → float;
  w_reads : nat;
  w_trace : list event
}.

Abbreviation W := (St world).

Definition set_heap (w : world) (h : heap) : world :=
  World h (w_clock w) (w_reads w) (w_trace w).

(** A heap computation run in the world. *)
Definition lift_heap {A} (m : M A) : W A := λ w,
  match m (w_heap w) with
  | Ok (a, h') => Ok (a, set_heap w h')
  | Raise e => Raise e
  | Stuck => Stuck
  end.

Definition emit (e : event) : W () := λ w,
  Ok ((), World (w_heap w) (w_clock w) (w_reads w) (w_trace w ++ [e])).

(** [_timer()]: one reading of the clock. *)
Definition timer : W float := λ w,
  let t := w_clock w (w_reads w) in
  Ok (t, World (w_heap w) (w_clock w) (S (w_reads w)) (w_trace w ++ [EvTimer t])).

(** The closure [stmt] of [time_algorithm]: [func(data[:])]. *)
Definition stmt (func : loc → M loc) (data : loc) : W () :=
  a ← lift_heap (copy data);
  emit (EvCopy data a);;
  emit (EvCall a);;
  lift_heap (func a);;
  mret ().

(** [timeit.Timer.timeit(number)] of the standard library: the clock is
    read, the statement runs [number] times, the clock is read again, and the
    difference is returned. *)
Definition Timer_timeit (statement : W ()) (number : nat) : W float :=
  t0 ← timer;
  for_ (range 0 number) (λ _, statement);;
  t1 ← timer;
  mret (fsub t1 t0).

(** [timeit.Timer.repeat(repeat, number)]: the list of [repeat] results of
    [timeit(number)]. *)
Definition Timer_repeat (statement : W ()) (repeat number : nat) : W (list float) :=
  for_acc (range 0 repeat) [] (λ r _, t ← Timer_timeit statement number; mret (r ++ [t])).

(** [repeats] is an integer; [range(repeat)] has [repeats] turns, none when
    [repeats <= 0]. *)
Definition time_algorithm (func : loc → M loc) (data : loc) (repeats : Z) : W float :=
  times ← Timer_repeat (stmt func data) (Z.to_nat repeats) 1;
  pure_outcome (py_min times).

(** ** The benchmark run *)

(** A measurement row: the dictionary with keys [pattern], [n], [algorithm]
    and [time_sec]. *)
Record row := Row {
  r_pattern : string;
  r_n : Z;
  r_algorithm : string;
  r_time_sec : float
}.

Section Benchmarks.
Context {rng : PRNG}.

(** The loop over [ALGORITHMS.items()] at a small size. *)
Definition measure_all (pattern : string) (n : Z) (data : loc) (repeats : Z)
    (rows : list row) : W (list row) :=
  for_acc ALGORITHMS rows (λ rows '(name, func),
    t ← time_algorithm func data repeats;
    mret (rows ++ [Row pattern n name t])).

(** The loop over [ALGORITHMS.items()] at a large size: [continue] on
    [Insertion]. *)
Definition measure_large (pattern : string) (n : Z) (data : loc) (repeats : Z)
    (rows : list row) : W (list row) :=
  for_acc ALGORITHMS rows (λ rows '(name, func),
    if bool_decide (name = "Insertion"%string) then mret rows
    else
      t ← time_algorithm func data repeats;
      mret (rows ++ [Row pattern n name t])).

Definition run_benchmarks (sizes large_sizes : list Z) (patterns : list string)
    (repeats : Z) : W (list row) :=
  for_acc patterns [] (λ rows pattern,
    rows ← for_acc sizes rows (λ rows n,
      data ← lift_heap (make_dataset n pattern 123);
      measure_all pattern n data repeats rows);
    for_acc large_sizes rows (λ rows n,
      data ← lift_heap (make_dataset n pattern 777);
      measure_large pattern n data repeats rows)).

End Benchmarks.

(** ** Growth factors *)

(** A growth row: the dictionary with keys [pattern], [algorithm], [pair]
    and [growth]. *)
Record growth_row := GrowthRow {
  g_pattern : string;
  g_algorithm : string;
  g_pair : string;
  g_growth : float
}.

Definition ladder : list Z := [1000; 2000; 5000].
Definition growth_patterns : list string := ["random"; "reversed"; "nearly_sorted"]%string.
Definition growth_algorithms : list string :=
  ["Insertion"; "Merge"; "Timsort (built-in)"]%string.

(** The list comprehension [vals] of [compute_growth]. *)
Definition cell_values (rows : list row) (pattern : string) (n : Z) (algo : string)
    : list float :=
  r_time_sec <$>
    filter (λ r, r_pattern r = pattern ∧ r_n r = n ∧ r_algorithm r = algo) rows.

(** One entry of [ts]: not-a-number for an empty [vals], else [min(vals)]. *)
Definition cell_time (rows : list row) (pattern : string) (n : Z) (algo : string)
    : outcome float :=
  let vals := cell_values rows pattern n algo in
  if bool_decide (vals = []) then Ok nan else py_min vals.

(** [ts[i]]. *)
Definition index (ts : list float) (i : nat) : outcome float :=
  match ts !! i with
  | Some t => Ok t
  | None => Raise IndexError
  end.

(** [for x in xs: acc = body(acc, x)] without a state. *)
Fixpoint fold_outcome {X B} (xs : list X) (acc : B) (body : B → X → outcome B) : outcome B :=
  match xs with
  | [] => Ok acc
  | x :: xs' => acc' ← body acc x; fold_outcome xs' acc' body
  end.

(** The body of the two nested loops of [compute_growth]. *)
Definition growth_of (rows : list row) (pattern algo : string) : outcome (list growth_row) :=
  ts ← fold_outcome ladder [] (λ ts n, t ← cell_time rows pattern n algo; Ok (ts ++ [t]));
  t1 ← index ts 1;
  t0 ← index ts 0;
  g1 ← truediv t1 t0;
  t2 ← index ts 2;
  t1' ← index ts 1;
  g2 ← truediv t2 t1';
  Ok [ GrowthRow pattern algo "1k→2k" g1; GrowthRow pattern algo "2k→5k" g2 ].

Definition compute_growth (rows : list row) : outcome (list growth_row) :=
  fold_outcome growth_patterns [] (λ result pattern,
    fold_outcome growth_algorithms result (λ result algo,
      new ← growth_of rows pattern algo;
      Ok (result ++ new))).

(** ** Functional readings

    What the loops above compute, as functions on lists.  The proofs below
    relate each loop to its reading; the statements of the main theorems are
    about the program. *)

Section DatasetReading.
Context {rng : PRNG}.

(** The list the swap loop of [make_dataset] leaves, and the generator after
    it. *)
Fixpoint swap_list (swaps : nat) (n : Z) (rnd : rng_state) (l : list Z)
    : outcome (list Z * rng_state) :=
  match swaps with
  | O => Ok (l, rnd)
  | S swaps' =>
      '(i, rnd1) ← randrange n rnd;
      '(j, rnd2) ← randrange n rnd1;
      match l !! j, l !! i with
      | Some x, Some y => swap_list swaps' n rnd2 (<[j:=y]> (<[i:=x]> l))
      | _, _ => Raise IndexError
      end
  end.

(** The elements [make_dataset] returns, or the exception it raises. *)
Definition dataset (n : Z) (pattern : string) (seed : Z) : outcome (list Z) :=
  let rnd := rng_seed seed in
  if bool_decide (pattern = "random"%string) then random_list (Z.to_nat n) rnd
  else if bool_decide (pattern = "sorted"%string) then Ok (int_range n)
  else if bool_decide (pattern = "reversed"%string) then Ok (int_range_down n)
  else if bool_decide (pattern = "nearly_sorted"%string) then
    '(l, _) ← swap_list (Z.to_nat (Z.max 1 (n / 100))) n rnd (int_range n); Ok l
  else Raise ValueError.

End DatasetReading.

(** The number of positions at which two lists differ. *)
Definition positions_differing (l1 l2 : list Z) : nat :=
  length (filter (λ p, p.1 ≠ p.2) (zip l1 l2)).

(** The patterns [make_dataset] knows. *)
Definition supported_patterns : list string :=
  ["random"; "sorted"; "reversed"; "nearly_sorted"]%string.

(** The events of trial [k] of [time_algorithm] when [reads] readings of the
    clock were made before the first trial and the trial copies [data] into
    [a]: a reading, the copy, the call, a reading. *)
Definition trial_events (clock : nat → float) (reads : nat) (data : loc) (k : nat) (a : loc)
    : list event :=
  [ EvTimer (clock (reads + 2 * k)%nat); EvCopy data a; EvCall a;
    EvTimer (clock (reads + 2 * k + 1)%nat) ].

(** The duration trial [k] measures. *)
Definition trial_duration (clock : nat → float) (reads : nat) (k : nat) : float :=
  fsub (clock (reads + 2 * k + 1)%nat) (clock (reads + 2 * k)%nat).

(** Whether every copy of a trace lies outside the timed regions.  A timed
    region runs from a reading of the clock to the next one; [timing] says
    whether the trace starts inside one. *)
Fixpoint copies_untimed (timing : bool) (tr : list event) : bool :=
  match tr with
  | [] => true
  | EvTimer _ :: tr' => copies_untimed (negb timing) tr'
  | EvCopy _ _ :: tr' => negb timing && copies_untimed timing tr'
  | EvCall _ :: tr' => copies_untimed timing tr'
  end.

(** The key of a measurement row. *)
Definition key_of (r : row) : string * Z * string :=
  (r_pattern r, r_n r, r_algorithm r).

(** The names of [ALGORITHMS], in registration order. *)
Definition algorithm_names : list string := ALGORITHMS.*1.

(** The row keys of one pattern and size: every algorithm at a small size,
    every algorithm but [Insertion] at a large size. *)
Definition small_keys (pattern : string) (n : Z) : list (string * Z * string) :=
  (λ name, (pattern, n, name)) <$> algorithm_names.
Definition large_keys (pattern : string) (n : Z) : list (string * Z * string) :=
  (λ name, (pattern, n, name)) <$> filter (λ name, name ≠ "Insertion"%string) algorithm_names.

(** The row keys of a run, in order: by pattern; within a pattern the small
    sizes, then the large sizes; within a size the algorithms. *)
Definition expected_keys (sizes large_sizes : list Z) (patterns : list string)
    : list (string * Z * string) :=
  patterns ≫= λ pattern,
    (sizes ≫= small_keys pattern) ++ (large_sizes ≫= large_keys pattern).

(** The configurations on which a run raises nothing: known patterns, at
    least one repeat, and no [nearly_sorted] dataset of size 0 or less. *)
Definition valid_config (sizes large_sizes : list Z) (patterns : list string)
    (repeats : Z) : Prop :=
  Forall (λ p, p ∈ supported_patterns) patterns ∧
  0 < repeats ∧
  ("nearly_sorted"%string ∈ patterns → Forall (λ n, 0 < n) (sizes ++ large_sizes)).

(** The entry of [ts] for one cell: not-a-number when no row matches, else
    the minimum [min] finds. *)
Definition cell_min (rows : list row) (pattern : string) (n : Z) (algo : string) : float :=
  match cell_values rows pattern n algo with
  | [] => nan
  | x :: xs => foldl min_step x xs
  end.

(** The two growth rows of one pattern and algorithm when no division
    raises. *)
Definition growth_pair (rows : list row) (pattern algo : string) : list growth_row :=
  [ GrowthRow pattern algo "1k→2k"
      (SFdiv 53 1024 (cell_min rows pattern 2000 algo) (cell_min rows pattern 1000 algo));
    GrowthRow pattern algo "2k→5k"
      (SFdiv 53 1024 (cell_min rows pattern 5000 algo) (cell_min rows pattern 2000 algo)) ].

(** The growth rows [compute_growth] returns when no division raises. *)
Definition expected_growth (rows : list row) : list growth_row :=
  growth_patterns ≫= λ pattern, growth_algorithms ≫= λ algo, growth_pair rows pattern algo.

(** The label of a growth row. *)
Definition label_of (g : growth_row) : string * string * string :=
  (g_pattern g, g_algorithm g, g_pair g).

(** The ladder sizes a pair label compares. *)
Definition pair_sizes (pair : string) : list Z :=
  if bool_decide (pair = "1k→2k"%string) then [1000; 2000]
  else if bool_decide (pair = "2k→5k"%string) then [2000; 5000]
  else [].

(** ** Specifications *)

(** A sort returns a new list that holds the elements of its argument in
    non-decreasing order, and leaves every list of the heap as it was. *)
Definition sort_contract (f : loc → M loc) : Prop :=
  ∀ (h : heap) arr d, h !! arr = Some d →
    ∃ r h' out, f arr h = Ok (r, h') ∧ h ⊆ h' ∧ h !! r = None ∧
      h' !! r = Some out ∧ out ≡ₚ d ∧ StronglySorted Z.le out.

(** What the harness needs of the timed function: on a list of the heap it
    returns, and no list of the heap is changed by the call. *)
Definition call_contract (f : loc → M loc) : Prop :=
  ∀ (h : heap) arg d, h !! arg = Some d → ∃ r h', f arg h = Ok (r, h') ∧ h ⊆ h'.

(** [f] called on the list object [arr], which holds [d] in the heap [h],
    returns a list that is a permutation of [d] in non-decreasing order. *)
Definition sorts (f : loc → M loc) (h : heap) (arr : loc) (d : list Z) : Prop :=
  ∃ r h' out, f arr h = Ok (r, h') ∧ h' !! r = Some out ∧
    out ≡ₚ d ∧ StronglySorted Z.le out.

(** [f] called on the list object [arr], which holds [d] in the heap [h],
    returns, and afterwards [arr] still holds [d] and every other list of [h]
    is as it was. *)
Definition keeps_input (f : loc → M loc) (h : heap) (arr : loc) (d : list Z) : Prop :=
  ∃ r h', f arr h = Ok (r, h') ∧ h' !! arr = Some d ∧ h ⊆ h'.

(** ** Concrete inputs *)

(** A heap that holds the list [[3; 1; 2]] at location 1. *)
Definition example_heap : heap := {[ 1%positive := [3; 1; 2] ]}.

(** The float that an integer rounds to. *)
Definition float_of_Z (z : Z) : float := binary_normalize 53 1024 z 0 false.

(** A clock whose [k]-th reading is [k * k + 1]. *)
Definition example_clock (k : nat) : float := float_of_Z (Z.of_nat (k * k + 1)).

(** A world whose heap holds the list [[2; 1]] at location 1. *)
Definition example_world : world :=
  World {[ 1%positive := [2; 1] ]} example_clock 0 [].

(** The run of the benchmark on one small size, one large size and one
    pattern, with the generator [lcg]. *)
Definition example_run : outcome (list row * world) :=
  run_benchmarks (rng := lcg) [1] [2] ["sorted"%string] 1 example_world.
Definition example_rows : list row :=
  match example_run with
  | Ok (rows, _) => rows
  | _ => []
  end.
Definition example_final : world :=
  match example_run with
  | Ok (_, w) => w
  | _ => example_world
  end.

(** ** Further readings *)

(** The number of calls of the timed function in a trace. *)
Fixpoint calls (tr : list event) : nat :=
  match tr with
  | [] => 0
  | EvCall _ :: tr' => S (calls tr')
  | _ :: tr' => calls tr'
  end.

(** The durations of the trials of a measurement that starts when the clock
    has been read [reads] times: trial [k] lasts from reading [reads + 2 * k]
    to reading [reads + 2 * k + 1]. *)
Definition trial_durations (clock : nat → float) (reads : nat) (repeats : Z) : list float :=
  trial_duration clock reads <$> seq 0 (Z.to_nat repeats).

(** [t] is a minimum of the durations [vals]: one of them, and none of them
    is less. *)
Definition is_minimum (t : float) (vals : list float) : Prop :=
  t ∈ vals ∧ ∀ t', t' ∈ vals → flt t' t = false.

(** What one measurement of [repeats] trials does to a world, and the
    duration [t] it returns: two readings of the clock and one call of the
    timed function per trial, and [t] is what [min] finds among the durations
    of the trials. *)
Definition measured (repeats : Z) (w : world) (t : float) (w' : world) : Prop :=
  w_clock w' = w_clock w ∧
  w_reads w' = (w_reads w + 2 * Z.to_nat repeats)%nat ∧
  calls (w_trace w') = (calls (w_trace w) + Z.to_nat repeats)%nat ∧
  py_min (trial_durations (w_clock w) (w_reads w) repeats) = Ok t.

(** From the rows and the world [p] to the rows and the world [q]: further
    rows, each measured by [repeats] trials of its own, one measurement after
    the other; nothing else reads the clock. *)
Definition grows (repeats : Z) (p q : list row * world) : Prop :=
  ∃ new, q.1 = p.1 ++ new ∧ w_clock q.2 = w_clock p.2 ∧
    w_reads q.2 = (w_reads p.2 + 2 * Z.to_nat repeats * length new)%nat ∧
    calls (w_trace q.2) = (calls (w_trace p.2) + Z.to_nat repeats * length new)%nat ∧
    ∀ i r, new !! i = Some r →
      py_min (trial_durations (w_clock p.2) (w_reads p.2 + 2 * Z.to_nat repeats * i) repeats)
        = Ok (r_time_sec r).

(** [f] called on the list object [arr] returns a list object that was not
    in the heap [h]: not [arr], nor any other list of the caller. *)
Definition returns_new (f : loc → M loc) (h : heap) (arr : loc) : Prop :=
  ∃ r h', f arr h = Ok (r, h') ∧ h !! r = None ∧ r ≠ arr ∧ is_Some (h' !! r).

(** A configuration with at least one dataset to measure. *)
Definition has_work (sizes large_sizes : list Z) (patterns : list string) : Prop :=
  patterns ≠ [] ∧ sizes ++ large_sizes ≠ [].

(** No divisor of [compute_growth] is zero: the entries of the sizes 1000
    and 2000, for each pattern and algorithm of the analysis. *)
Definition nonzero_divisors (rows : list row) : Prop :=
  ∀ pattern algo n, pattern ∈ growth_patterns → algo ∈ growth_algorithms →
    n ∈ [1000; 2000] → SFeqb (cell_min rows pattern n algo) fzero = false.

(** The rows [compute_growth] reads: those of a pattern, a size and an
    algorithm of the analysis. *)
Definition in_growth_scope (r : row) : Prop :=
  r_pattern r ∈ growth_patterns ∧ r_n r ∈ ladder ∧ r_algorithm r ∈ growth_algorithms.

(** The configuration [parse_args] gives when the command line names
    none. *)
Definition default_sizes : list Z := [1000; 2000; 5000].
Definition default_large_sizes : list Z := [10000; 20000; 50000].
Definition default_patterns : list string :=
  ["random"; "sorted"; "reversed"; "nearly_sorted"]%string.
Definition default_repeats : Z := 3.

(** The second row of the example run. *)
Definition example_row : row :=
  match example_rows !! 1%nat with
  | Some r => r
  | None => Row "" 0 "" nan
  end.

(** Three measurements of [Merge] on [random] data, two of them of the
    size 2000, and the growth rows computed from them. *)
Definition example_measurements : list row :=
  [ Row "random" 1000 "Merge" (float_of_Z 1);
    Row "random" 2000 "Merge" (float_of_Z 4);
    Row "random" 2000 "Merge" (float_of_Z 2) ].
Definition example_growth : list growth_row :=
  match compute_growth example_measurements with
  | Ok out => out
  | _ => []
  end.
Definition example_ratio : growth_row :=
  GrowthRow "random" "Merge" "1k→2k" (float_of_Z 2).

(** * The Koch snowflake of [task_2.py] *)

Module task_2.

(** A Python number passed as a length: an [int] or a [float]. *)
Inductive number :=
  | Int (z : Z)
  | Float (x : float).

(** The calls the program makes on the [turtle] module, the screen and the
    turtle, and what it prints.  The module is not code of the program: the
    model keeps the calls, in order. *)
Inductive call :=
  | Screen
  | screen_title (s : string)
  | screen_bgcolor (color : string)
  | screen_tracer (on : bool)
  | Turtle (visible : bool)
  | speed (s : Z)
  | penup
  | goto (x y : float)
  | pendown
  | forward (distance : number)
  | left (angle : Z)
  | right (angle : Z)
  | screen_update
  | screen_mainloop
  | print (s : string).

Inductive error := OverflowError | RecursionError.

(** A run returns a value or raises; either way the calls made so far stay
    made. *)
Inductive reply (A : Type) :=
  | Returns (a : A) (log : list call)
  | Raises (e : error) (log : list call).
Arguments Returns {A} a log.
Arguments Raises {A} e log.

Definition Draw (A : Type) : Type := list call → reply A.

#[global] Instance Draw_ret : MRet Draw := λ A a log, Returns a log.
#[global] Instance Draw_bind : MBind Draw := λ A B f m log,
  match m log with
  | Returns a log' => f a log'
  | Raises e log' => Raises e log'
  end.

Definition throw {A} (e : error) : Draw A := λ log, Raises e log.
Definition invoke (c : call) : Draw () := λ log, Returns () (log ++ [c]).

Definition two : float := float_of_Z 2.
Definition three : float := float_of_Z 3.

Definition is_infinite (x : float) : bool :=
  match x with
  | S754_infinity _ => true
  | _ => false
  end.

(** The [float] an [int] converts to in mixed arithmetic: the nearest
    binary64 number, [OverflowError] when that is out of range. *)
Definition float_of_int (z : Z) : Draw float :=
  let x := float_of_Z z in
  if is_infinite x then throw OverflowError else mret x.

(** [length /= 3.0]. *)
Definition third (length : number) : Draw number :=
  match length with
  | Int z => x ← float_of_int z; mret (Float (SFdiv 53 1024 x three))
  | Float x => mret (Float (SFdiv 53 1024 x three))
  end.

(** [depth] is the number of calls of [koch_curve] the interpreter still
    allows, one inside the other: a call that finds none raises
    [RecursionError].  The frames the calls on the turtle need are not
    counted. *)
Fixpoint koch_curve (depth : nat) (order : Z) (length : number) : Draw () :=
  match depth with
  | O => throw RecursionError
  | S depth' =>
      if bool_decide (order = 0) then invoke (forward length)
      else
        length ← third length;
        koch_curve depth' (order - 1) length;;
        invoke (left 60);;
        koch_curve depth' (order - 1) length;;
        invoke (right 120);;
        koch_curve depth' (order - 1) length;;
        invoke (left 60);;
        koch_curve depth' (order - 1) length
  end.

(** [z / 2] on integers: the nearest binary64 number to the exact quotient,
    [OverflowError] when that is out of range. *)
Definition half_of_int (z : Z) : Draw float :=
  let x := binary_normalize 53 1024 z (-1) false in
  if is_infinite x then throw OverflowError else mret x.

(** [for _ in range(n): body]. *)
Fixpoint for_range {A} (n : nat) (body : Draw A) : Draw () :=
  match n with
  | O => mret ()
  | S n' => body;; for_range n' body
  end.

(** [depth] frames are left for [koch_curve]. *)
Definition draw_koch_snowflake (depth : nat) (order size : Z) : Draw () :=
  invoke Screen;;
  invoke (screen_title ("Koch snowflake — order=" +:+ pretty order));;
  invoke (screen_bgcolor "white");;
  invoke (screen_tracer false);;
  invoke (Turtle false);;
  invoke (speed 0);;
  invoke penup;;
  s ← float_of_int size;
  let h := SFdiv 53 1024 (SFmul 53 1024 s (SFsqrt 53 1024 three)) two in
  x ← half_of_int (- size);
  invoke (goto x (SFdiv 53 1024 (SFopp h) three));;
  invoke pendown;;
  for_range 3 (koch_curve depth order (Int size);; invoke (right 120));;
  invoke screen_update;;
  invoke screen_mainloop.


(** The distances of the [forward] calls, in order. *)
Fixpoint segments (cs : list call) : list number :=
  match cs with
  | [] => []
  | forward d :: cs' => d :: segments cs'
  | _ :: cs' => segments cs'
  end.

(** The turn the calls add up to, in degrees counter-clockwise. *)
Fixpoint turning (cs : list call) : Z :=
  match cs with
  | [] => 0
  | left a :: cs' => a + turning cs'
  | right a :: cs' => turning cs' - a
  | _ :: cs' => turning cs'
  end.

(** What [print] wrote, in order. *)
Fixpoint printed (cs : list call) : list string :=
  match cs with
  | [] => []
  | print s :: cs' => s :: printed cs'
  | _ :: cs' => printed cs'
  end.

(** The value of a length as a [float], when it has one. *)
Definition as_float (length : number) : option float :=
  match length with
  | Int z => if is_infinite (float_of_Z z) then None else Some (float_of_Z z)
  | Float x => Some x
  end.

(** The length of the segments of a curve of order [n] drawn with length
    [length], whose value is [x]: [length] itself at order 0, else [x]
    divided [n] times by [3.0]. *)
Definition segment_length (n : nat) (length : number) (x : float) : number :=
  match n with
  | O => length
  | S _ => Float (Nat.iter n (λ y, SFdiv 53 1024 y three) x)
  end.

(** The calls of a curve of order [n]. *)
Fixpoint koch_calls (n : nat) (length : number) (x : float) : list call :=
  match n with
  | O => [forward length]
  | S n' =>
      let x' := SFdiv 53 1024 x three in
      let side := koch_calls n' (Float x') x' in
      side ++ [left 60] ++ side ++ [right 120] ++ side ++ [left 60] ++ side
  end.

(** The sizes [draw_koch_snowflake] can place: [size] converts to a [float]
    and [-size / 2] is in the range of [float]. *)
Definition in_float_range (size : Z) : Prop :=
  is_infinite (float_of_Z size) = false ∧
  is_infinite (binary_normalize 53 1024 (- size) (-1) false) = false.

End task_2.

(** * Verification *)

(** ** The scenarios of the specification *)

Example insertion_sort_reversed : run_sort insertion_sort [5; 4; 3; 2; 1] = Ok [1; 2; 3; 4; 5].
Proof. vm_compute. reflexivity. Qed.

Example merge_sort_reversed : run_sort merge_sort [5; 4; 3; 2; 1] = Ok [1; 2; 3; 4; 5].
Proof. vm_compute. reflexivity. Qed.

Example timsort_reversed : run_sort timsort [5; 4; 3; 2; 1] = Ok [1; 2; 3; 4; 5].
Proof. vm_compute. reflexivity. Qed.

Example sorts_of_empty :
  run_sort insertion_sort [] = Ok [] ∧ run_sort merge_sort [] = Ok [] ∧
  run_sort timsort [] = Ok [].
Proof. vm_compute. done. Qed.

Example make_dataset_reversed_5 `{PRNG} (seed : Z) :
  observe (make_dataset 5 "reversed" seed ∅) = Ok [5; 4; 3; 2; 1].
Proof. reflexivity. Qed.

Example make_dataset_random_0 `{PRNG} :
  observe (make_dataset 0 "random" 1 ∅) = Ok [].
Proof. reflexivity. Qed.

(** ** Running the monad *)

Lemma bind_run {S A B} (m : St S A) (f : A → St S B) s a s' :
  m s = Ok (a, s') → (m ≫= f) s = f a s'.
Proof. intros H. unfold mbind, St_bind. by rewrite H. Qed.

Lemma ret_run {S A} (a : A) (s : S) : (mret a : St S A) s = Ok (a, s).
Proof. done. Qed.

Section heap_lemmas.
Implicit Types (h : heap) (a r : loc) (l : list Z).

Lemma fresh_lookup h : h !! fresh (dom h) = None.
Proof. apply not_elem_of_dom, is_fresh. Qed.

Lemma alloc_run l h : alloc l h = Ok (fresh (dom h), <[fresh (dom h) := l]> h).
Proof. done. Qed.

Lemma alloc_subseteq l h : h ⊆ <[fresh (dom h) := l]> h.
Proof. apply insert_subseteq, fresh_lookup. Qed.

Lemma load_run h a l : h !! a = Some l → load a h = Ok (l, h).
Proof. intros H. unfold load. by rewrite H. Qed.

Lemma store_run h a l l' : h !! a = Some l → store a l' h = Ok ((), <[a := l']> h).
Proof. intros H. unfold store. by rewrite H. Qed.

Lemma len_run h a l : h !! a = Some l → len a h = Ok (length l, h).
Proof. intros H. unfold len. by rewrite (bind_run _ _ _ _ _ (load_run _ _ _ H)). Qed.

Lemma getitem_run h a l i x :
  h !! a = Some l → l !! i = Some x → getitem a i h = Ok (x, h).
Proof.
  intros H Hi. unfold getitem.
  rewrite (bind_run _ _ _ _ _ (load_run _ _ _ H)). by rewrite Hi.
Qed.

Lemma getitem_raise h a l i :
  h !! a = Some l → l !! i = None → getitem a i h = Raise IndexError.
Proof.
  intros H Hi. unfold getitem.
  rewrite (bind_run _ _ _ _ _ (load_run _ _ _ H)). by rewrite Hi.
Qed.

Lemma setitem_run h a l i x :
  h !! a = Some l → (i < length l)%nat →
  setitem a i x h = Ok ((), <[a := <[i:=x]> l]> h).
Proof.
  intros H Hi. unfold setitem.
  rewrite (bind_run _ _ _ _ _ (load_run _ _ _ H)).
  rewrite bool_decide_true by done. by eapply store_run.
Qed.

Lemma append_run h a l x :
  h !! a = Some l → append a x h = Ok ((), <[a := l ++ [x]]> h).
Proof.
  intros H. unfold append.
  rewrite (bind_run _ _ _ _ _ (load_run _ _ _ H)). by eapply store_run.
Qed.

Lemma extend_run h a b l l2 :
  h !! a = Some l → h !! b = Some l2 → extend a b h = Ok ((), <[a := l ++ l2]> h).
Proof.
  intros Ha Hb. unfold extend.
  rewrite (bind_run _ _ _ _ _ (load_run _ _ _ Ha)).
  rewrite (bind_run _ _ _ _ _ (load_run _ _ _ Hb)). by eapply store_run.
Qed.

Lemma copy_run h a l :
  h !! a = Some l → copy a h = Ok (fresh (dom h), <[fresh (dom h) := l]> h).
Proof. intros H. unfold copy. by rewrite (bind_run _ _ _ _ _ (load_run _ _ _ H)). Qed.

Lemma slice_to_run h a l n :
  h !! a = Some l → slice_to a n h = Ok (fresh (dom h), <[fresh (dom h) := take n l]> h).
Proof. intros H. unfold slice_to. by rewrite (bind_run _ _ _ _ _ (load_run _ _ _ H)). Qed.

Lemma slice_from_run h a l n :
  h !! a = Some l → slice_from a n h = Ok (fresh (dom h), <[fresh (dom h) := drop n l]> h).
Proof. intros H. unfold slice_from. by rewrite (bind_run _ _ _ _ _ (load_run _ _ _ H)). Qed.

End heap_lemmas.

(** ** Insertion sort *)

Lemma insertion_while_run (h : heap) a key l1 x l2 :
  h !! a = Some (l1 ++ x :: l2) →
  ∃ la lb g,
    l1 = la ++ lb ∧ Forall (λ y, key < y) lb ∧ (∀ y, last la = Some y → y ≤ key) ∧
    insertion_while a key (length l1) h = Ok (length la, <[a := la ++ g :: lb ++ l2]> h).
Proof.
  revert h x l2. induction l1 as [|y l IH] using rev_ind; intros h x l2 Ha.
  - exists [], [], x. split_and!; [done|done|done|].
    simpl. rewrite insert_id; done.
  - rewrite length_app, Nat.add_1_r. cbn [insertion_while].
    rewrite <- (assoc_L (++)) in Ha. simpl in Ha.
    erewrite bind_run by (eapply getitem_run; [done|]; by apply list_lookup_middle).
    case_bool_decide as Hlt.
    + erewrite bind_run; last first.
      { eapply (setitem_run _ _ _ (S (length l))); [done|].
        rewrite length_app. simpl. lia. }
      assert (<[S (length l):=y]> (l ++ y :: x :: l2) = l ++ y :: y :: l2) as ->.
      { replace (S (length l)) with (length l + 1)%nat by lia.
        by rewrite insert_app_r. }
      destruct (IH (<[a:=l ++ y :: y :: l2]> h) y (y :: l2)) as (la & lb & g & -> & Hlb & Hla & Hrun).
      { by rewrite lookup_insert_eq. }
      exists la, (lb ++ [y]), g. split_and!.
      * by rewrite (assoc_L (++)).
      * apply Forall_app. split; [done|]. by constructor.
      * done.
      * rewrite Hrun. rewrite insert_insert_eq.
        by rewrite <- !(assoc_L (++)).
    + exists (l ++ [y]), [], x. split_and!.
      * by rewrite (right_id_L [] (++)).
      * done.
      * intros z. rewrite last_snoc. intros [= <-]. lia.
      * rewrite ret_run, length_app, Nat.add_1_r. simpl.
        rewrite <- (assoc_L (++)). simpl. by rewrite insert_id.
Qed.

Lemma insertion_body_run (h : heap) a l1 x l2 :
  h !! a = Some (l1 ++ x :: l2) → StronglySorted Z.le l1 →
  ∃ l1', l1' ≡ₚ l1 ++ [x] ∧ StronglySorted Z.le l1' ∧
    insertion_body a (length l1) h = Ok ((), <[a := l1' ++ l2]> h).
Proof.
  intros Ha Hs. unfold insertion_body.
  erewrite bind_run by (eapply getitem_run; [done|]; by apply list_lookup_middle).
  destruct (insertion_while_run h a x l1 x l2 Ha) as (la & lb & g & -> & Hlb & Hla & Hrun).
  erewrite bind_run by done.
  exists (la ++ x :: lb). split_and!.
  - by rewrite <- Permutation_middle, <- Permutation_cons_append.
  - apply StronglySorted_app in Hs as (Hab & Hsa & Hsb).
    apply StronglySorted_app_2; [| done |].
    + intros y z Hy Hz.
      assert (y ≤ x) as Hyx.
      { destruct la as [|y0 la0 _] using rev_ind; [by apply elem_of_nil in Hy|].
        specialize (Hla y0 (last_snoc _ _)).
        apply elem_of_app in Hy as [Hy| ->%list_elem_of_singleton]; [|done].
        pose proof (StronglySorted_app_1_elem_of _ _ _ y y0 Hsa Hy) as Hle.
        etrans; [apply Hle; by left|done]. }
      apply elem_of_cons in Hz as [->|Hz]; [done|].
      rewrite Forall_forall in Hlb. specialize (Hlb z Hz). lia.
    + constructor; [done|]. eapply Forall_impl; [done|]. simpl. lia.
  - rewrite (setitem_run _ a (la ++ g :: lb ++ l2) (length la) x); last first.
    { rewrite length_app. simpl. lia. }
    { by rewrite lookup_insert_eq. }
    rewrite insert_insert_eq. do 3 f_equal.
    replace (length la) with (length la + 0)%nat by lia.
    rewrite insert_app_r. simpl. by rewrite <- (assoc_L (++)).
Qed.

Lemma insertion_loop_run (h : heap) a l2 : ∀ l1,
  h !! a = Some (l1 ++ l2) → StronglySorted Z.le l1 →
  ∃ l', l' ≡ₚ l1 ++ l2 ∧ StronglySorted Z.le l' ∧
    for_ (seq (length l1) (length l2)) (insertion_body a) h = Ok ((), <[a := l']> h).
Proof.
  revert h. induction l2 as [|x l2 IH]; intros h l1 Ha Hs.
  - exists l1. rewrite (right_id_L [] (++)) in *. split_and!; [done..|].
    simpl. rewrite ret_run. by rewrite insert_id.
  - destruct (insertion_body_run h a l1 x l2 Ha Hs) as (l1' & Hp & Hs' & Hrun).
    simpl. erewrite bind_run by done.
    destruct (IH (<[a:=l1' ++ l2]> h) l1') as (l' & Hp' & Hs'' & Hrun').
    { by rewrite lookup_insert_eq. }
    { done. }
    exists l'. split_and!.
    + rewrite Hp', Hp, <- (assoc_L (++)). done.
    + done.
    + replace (S (length l1)) with (length l1') by (rewrite Hp, length_app; simpl; lia).
      rewrite Hrun'. by rewrite insert_insert_eq.
Qed.

Lemma insertion_sort_contract : sort_contract insertion_sort.
Proof.
  intros h arr d Harr. unfold insertion_sort.
  erewrite bind_run by (by eapply copy_run).
  set (a := fresh (dom h)). set (h1 := <[a:=d]> h).
  assert (h1 !! a = Some d) as Ha by apply lookup_insert_eq.
  erewrite bind_run by (by eapply len_run).
  assert (∃ l', l' ≡ₚ d ∧ StronglySorted Z.le l' ∧
            for_ (range 1 (length d)) (insertion_body a) h1 = Ok ((), <[a := l']> h1))
    as (l' & Hp & Hs & Hrun).
  { destruct d as [|x d].
    - exists []. split_and!; [done|constructor|].
      unfold range. simpl. rewrite ret_run. by rewrite insert_id.
    - unfold range. simpl length. rewrite Nat.sub_succ, Nat.sub_0_r.
      apply (insertion_loop_run h1 a d [x]); [done|].
      repeat constructor. }
  erewrite bind_run by done. rewrite ret_run.
  eexists _, _, l'. split_and!; [done| | |by apply lookup_insert_eq|done|done].
  - unfold h1. rewrite insert_insert_eq. apply alloc_subseteq.
  - apply fresh_lookup.
Qed.

(** ** The built-in sort *)

Lemma insert_ascending_perm x l : insert_ascending x l ≡ₚ x :: l.
Proof.
  induction l as [|y l IH]; simpl; [done|].
  case_bool_decide; [done|]. rewrite IH. apply Permutation_swap.
Qed.

Lemma insert_ascending_sorted x l :
  StronglySorted Z.le l → StronglySorted Z.le (insert_ascending x l).
Proof.
  induction 1 as [|y l Hs IH Hy]; simpl.
  - repeat constructor.
  - case_bool_decide.
    + constructor; [by constructor|]. constructor; [done|].
      eapply Forall_impl; [done|]. simpl. lia.
    + constructor; [done|]. rewrite insert_ascending_perm.
      constructor; [lia|done].
Qed.

Lemma sorted_list_perm l : sorted_list l ≡ₚ l.
Proof.
  induction l as [|x l IH]; simpl; [done|].
  by rewrite insert_ascending_perm, IH.
Qed.

Lemma sorted_list_sorted l : StronglySorted Z.le (sorted_list l).
Proof.
  induction l as [|x l IH]; simpl; [constructor|].
  by apply insert_ascending_sorted.
Qed.

(** On integers the contract of a sort fixes its result. *)
Lemma sorted_unique l out :
  out ≡ₚ l → StronglySorted Z.le out → out = sorted_list l.
Proof.
  intros Hp Hs. apply (StronglySorted_unique Z.le); [done|apply sorted_list_sorted|].
  by rewrite sorted_list_perm.
Qed.

Lemma timsort_contract : sort_contract timsort.
Proof.
  intros h arr d Harr. unfold timsort, sorted.
  erewrite bind_run by (by eapply load_run).
  rewrite alloc_run.
  eexists _, _, (sorted_list d).
  split_and!; [done|apply alloc_subseteq|apply fresh_lookup|apply lookup_insert_eq| |].
  - apply sorted_list_perm.
  - apply sorted_list_sorted.
Qed.

(** ** Merge sort *)

Lemma merge_while_run left right res l r : ∀ fuel i j acc (h : heap),
  h !! left = Some l → h !! right = Some r → h !! res = Some acc →
  res ≠ left → res ≠ right →
  ((length l - i) + (length r - j) ≤ fuel)%nat →
  ∃ i' j' out,
    merge_while fuel left right res i j h = Ok ((i', j'), <[res := acc ++ out]> h) ∧
    out ++ drop i' l ++ drop j' r = list_merge Z.le (drop i l) (drop j r).
Proof.
  induction fuel as [|fuel IH]; intros i j acc h Hl Hr Hres Hnl Hnr Hfuel; simpl.
  - erewrite bind_run by (by eapply len_run).
    erewrite bind_run by (by eapply len_run).
    exists i, j, []. rewrite (right_id_L [] (++)), insert_id by done.
    destruct (decide (i < length l)%nat) as [Hi|Hi].
    + assert (length r ≤ j)%nat as Hj by lia.
      rewrite (bool_decide_true _ Hi), (bool_decide_false (j < length r)%nat) by lia.
      simpl. split; [done|].
      by rewrite (drop_ge r j), list_merge_nil_r, (right_id_L [] (++)).
    + rewrite (bool_decide_false _ Hi). simpl. split; [done|].
      rewrite (drop_ge l i) by lia. by rewrite list_merge_nil_l.
  - erewrite bind_run by (by eapply len_run).
    erewrite bind_run by (by eapply len_run).
    destruct (decide (i < length l)%nat) as [Hi|Hi]; last first.
    { rewrite (bool_decide_false _ Hi). simpl.
      exists i, j, []. rewrite (right_id_L [] (++)), insert_id by done.
      split; [done|]. rewrite (drop_ge l i) by lia. by rewrite list_merge_nil_l. }
    destruct (decide (j < length r)%nat) as [Hj|Hj]; last first.
    { rewrite (bool_decide_true _ Hi), (bool_decide_false _ Hj). simpl.
      exists i, j, []. rewrite (right_id_L [] (++)), insert_id by done.
      split; [done|].
      rewrite (drop_ge r j) by lia.
      by rewrite list_merge_nil_r, (right_id_L [] (++)). }
    rewrite (bool_decide_true _ Hi), (bool_decide_true _ Hj). simpl.
    destruct (lookup_lt_is_Some_2 l i Hi) as [x Hx].
    destruct (lookup_lt_is_Some_2 r j Hj) as [y Hy].
    erewrite bind_run by (by eapply getitem_run).
    erewrite bind_run by (by eapply getitem_run).
    rewrite (drop_S l x i Hx), (drop_S r y j Hy), list_merge_cons.
    case_bool_decide as Hxy.
    + rewrite decide_True by done.
      erewrite bind_run by (by eapply append_run).
      destruct (IH (S i) j (acc ++ [x]) (<[res:=acc ++ [x]]> h))
        as (i' & j' & out & Hrun & Hout).
      { by rewrite lookup_insert_ne. }
      { by rewrite lookup_insert_ne. }
      { apply lookup_insert_eq. }
      { done. }
      { done. }
      { lia. }
      exists i', j', (x :: out). split.
      * rewrite Hrun, insert_insert_eq. by rewrite <- (assoc_L (++)).
      * simpl. rewrite Hout. by rewrite (drop_S r y j Hy).
    + rewrite decide_False by done.
      erewrite bind_run by (by eapply append_run).
      destruct (IH i (S j) (acc ++ [y]) (<[res:=acc ++ [y]]> h))
        as (i' & j' & out & Hrun & Hout).
      { by rewrite lookup_insert_ne. }
      { by rewrite lookup_insert_ne. }
      { apply lookup_insert_eq. }
      { done. }
      { done. }
      { lia. }
      exists i', j', (y :: out). split.
      * rewrite Hrun, insert_insert_eq. by rewrite <- (assoc_L (++)).
      * simpl. rewrite Hout. by rewrite (drop_S l x i Hx).
Qed.

(** The [if i < len(src): res.extend(src[i:])] steps that end [_merge]. *)
Lemma merge_tail_run (h : heap) res src cur s i :
  h !! res = Some cur → h !! src = Some s →
  ∃ h', (if bool_decide (i < length s)%nat
         then t ← slice_from src i; extend res t else mret ()) h = Ok ((), h') ∧
    h' !! res = Some (cur ++ drop i s) ∧
    (∀ k v, k ≠ res → h !! k = Some v → h' !! k = Some v).
Proof.
  intros Hres Hsrc. case_bool_decide as Hi.
  - erewrite bind_run by (by eapply slice_from_run).
    pose proof (fresh_lookup h) as Hf.
    assert (fresh (dom h) ≠ res) as Ht by congruence.
    erewrite extend_run; [|by rewrite lookup_insert_ne|apply lookup_insert_eq].
    eexists. split; [done|]. split; [apply lookup_insert_eq|].
    intros k v Hk Hv. rewrite lookup_insert_ne by done.
    rewrite lookup_insert_ne; [done|]. congruence.
  - exists h. rewrite (drop_ge s i) by lia. rewrite (right_id_L [] (++)).
    split; [done|]. split; done.
Qed.

Lemma _merge_run (h : heap) left right l r :
  h !! left = Some l → h !! right = Some r →
  ∃ res h', _merge left right h = Ok (res, h') ∧ h ⊆ h' ∧ h !! res = None ∧
    h' !! res = Some (list_merge Z.le l r).
Proof.
  intros Hl Hr. unfold _merge. rewrite (bind_run _ _ _ _ _ (alloc_run _ _)).
  set (res := fresh (dom h)).
  assert (h !! res = None) as Hfresh by apply fresh_lookup.
  assert (res ≠ left) as Hnl by congruence.
  assert (res ≠ right) as Hnr by congruence.
  set (h1 := <[res:=[]]> h).
  assert (h1 !! left = Some l) as Hl1 by (by unfold h1; rewrite lookup_insert_ne).
  assert (h1 !! right = Some r) as Hr1 by (by unfold h1; rewrite lookup_insert_ne).
  erewrite bind_run by (by eapply len_run).
  erewrite bind_run by (by eapply len_run).
  destruct (merge_while_run left right res l r (length l + length r) 0 0 [] h1)
    as (i & j & out & Hrun & Hout); [done|done|apply lookup_insert_eq|done|done|lia|].
  erewrite bind_run by done. rewrite !drop_0 in Hout. simpl.
  set (h2 := <[res:=out]> h1) in *.
  destruct (merge_tail_run h2 res left out l i) as (h3 & Hrun3 & Hres3 & Hkeep3).
  { apply lookup_insert_eq. }
  { by unfold h2; rewrite lookup_insert_ne. }
  erewrite bind_run by done.
  destruct (merge_tail_run h3 res right (out ++ drop i l) r j) as (h4 & Hrun4 & Hres4 & Hkeep4).
  { done. }
  { apply Hkeep3; [done|]. by unfold h2; rewrite lookup_insert_ne. }
  erewrite bind_run by done. rewrite ret_run.
  exists res, h4. split_and!; [done| |done|].
  - apply map_subseteq_spec. intros k v Hk.
    assert (k ≠ res) as Hne by congruence.
    apply Hkeep4, Hkeep3; [done..|].
    unfold h2, h1. by rewrite !lookup_insert_ne.
  - rewrite Hres4, <- Hout. by rewrite <- (assoc_L (++)).
Qed.

Lemma short_list_sorted (d : list Z) : (length d ≤ 1)%nat → StronglySorted Z.le d.
Proof.
  destruct d as [|x [|y d]]; simpl; intros; [repeat constructor..|lia].
Qed.

Lemma list_merge_sorted_list l1 l2 :
  list_merge Z.le (sorted_list l1) (sorted_list l2) = sorted_list (l1 ++ l2).
Proof.
  apply sorted_unique.
  - by rewrite merge_Permutation, !sorted_list_perm.
  - apply Sorted_StronglySorted; [apply _|].
    apply Sorted_list_merge; [apply _|..];
      apply StronglySorted_Sorted, sorted_list_sorted.
Qed.

Lemma merge_sort_rec_run : ∀ fuel (h : heap) arr d,
  h !! arr = Some d → (length d < fuel)%nat →
  ∃ r h', merge_sort_rec fuel arr h = Ok (r, h') ∧ h ⊆ h' ∧ h !! r = None ∧
    h' !! r = Some (sorted_list d).
Proof.
  induction fuel as [|fuel IH]; intros h arr d Harr Hfuel; [lia|].
  simpl. erewrite bind_run by (by eapply copy_run).
  set (a := fresh (dom h)). set (h1 := <[a:=d]> h).
  assert (h !! a = None) as Hfa by apply fresh_lookup.
  assert (h1 !! a = Some d) as Ha by apply lookup_insert_eq.
  assert (h ⊆ h1) as Hsub1 by (by apply insert_subseteq).
  erewrite bind_run by (by eapply len_run).
  case_bool_decide as Hlen.
  { rewrite ret_run. exists a, h1. split_and!; [done..|].
    rewrite Ha. f_equal. apply sorted_unique; [done|by apply short_list_sorted]. }
  set (mid := (length d / 2)%nat).
  assert (1 ≤ mid ∧ mid < length d)%nat as [Hmid1 Hmid2].
  { unfold mid. split.
    - apply Nat.div_le_lower_bound; lia.
    - apply Nat.div_lt; lia. }
  erewrite bind_run by (by eapply slice_to_run).
  set (pl := fresh (dom h1)). set (h2 := <[pl:=take mid d]> h1).
  assert (h1 ⊆ h2) as Hsub2 by apply alloc_subseteq.
  destruct (IH h2 pl (take mid d)) as (l' & h3 & Hrun3 & Hsub3 & Hf3 & Hl3).
  { apply lookup_insert_eq. }
  { rewrite length_take. lia. }
  erewrite bind_run by done.
  assert (h3 !! a = Some d) as Ha3.
  { eapply lookup_weaken; [|done]. eapply lookup_weaken; done. }
  erewrite bind_run by (by eapply slice_from_run).
  set (pr := fresh (dom h3)). set (h4 := <[pr:=drop mid d]> h3).
  assert (h3 ⊆ h4) as Hsub4 by apply alloc_subseteq.
  destruct (IH h4 pr (drop mid d)) as (r' & h5 & Hrun5 & Hsub5 & Hf5 & Hr5).
  { apply lookup_insert_eq. }
  { rewrite length_drop. lia. }
  erewrite bind_run by done.
  destruct (_merge_run h5 l' r' (sorted_list (take mid d)) (sorted_list (drop mid d)))
    as (res & h6 & Hrun6 & Hsub6 & Hf6 & Hres6).
  { eapply lookup_weaken; [|done]. eapply lookup_weaken; done. }
  { done. }
  assert (h ⊆ h5) as Hsub.
  { repeat (etrans; [|done]). done. }
  exists res, h6. split_and!.
  - done.
  - by etrans.
  - by eapply lookup_weaken_None.
  - by rewrite Hres6, list_merge_sorted_list, take_drop.
Qed.

Lemma merge_sort_contract : sort_contract merge_sort.
Proof.
  intros h arr d Harr. unfold merge_sort.
  erewrite bind_run by (by eapply len_run).
  destruct (merge_sort_rec_run (S (length d)) h arr d) as (r & h' & Hrun & Hsub & Hf & Hr);
    [done|lia|].
  exists r, h', (sorted_list d).
  split_and!; [done..|apply sorted_list_perm|apply sorted_list_sorted].
Qed.

(** ** Dataset generation *)

Lemma bind_pure_outcome {S A B} (o : outcome A) (f : A → St S B) (s : S) :
  (pure_outcome o ≫= f) s =
    match o with
    | Ok a => f a s
    | Raise e => Raise e
    | Stuck => Stuck
    end.
Proof. unfold mbind, St_bind. by destruct o. Qed.

Section dataset_lemmas.
Context {rng : PRNG}.

Lemma randrange_lt n rnd i rnd' : randrange n rnd = Ok (i, rnd') → (i < Z.to_nat n)%nat.
Proof.
  unfold randrange. case_bool_decide as Hn; [|done].
  intros [= Heq]. pose proof (rng_below_lt (Z.to_nat n) rnd) as Hlt.
  rewrite Heq in Hlt. apply Hlt. lia.
Qed.

Lemma randrange_ok n rnd : 0 < n → ∃ i rnd', randrange n rnd = Ok (i, rnd').
Proof.
  intros Hn. unfold randrange. rewrite bool_decide_true by done.
  destruct (rng_below (Z.to_nat n) rnd) as [i rnd']. by exists i, rnd'.
Qed.

Lemma swap_loop_run swaps a n : ∀ rnd (h : heap) l,
  h !! a = Some l →
  swap_loop swaps a n rnd h =
    match swap_list swaps n rnd l with
    | Ok (l', rnd') => Ok (rnd', <[a := l']> h)
    | Raise e => Raise e
    | Stuck => Stuck
    end.
Proof.
  induction swaps as [|swaps IH]; intros rnd h l Ha; simpl.
  - rewrite ret_run. by rewrite insert_id.
  - rewrite bind_pure_outcome.
    destruct (randrange n rnd) as [[i rnd1]| |]; simpl; [|done..].
    rewrite bind_pure_outcome.
    destruct (randrange n rnd1) as [[j rnd2]| |]; simpl; [|done..].
    destruct (l !! j) as [x|] eqn:Hj; last first.
    { unfold mbind at 1, St_bind. by erewrite getitem_raise. }
    erewrite bind_run by (by eapply getitem_run).
    destruct (l !! i) as [y|] eqn:Hi; last first.
    { unfold mbind at 1, St_bind. by erewrite getitem_raise. }
    erewrite bind_run by (by eapply getitem_run).
    erewrite bind_run; last first.
    { eapply setitem_run; [done|]. by eapply lookup_lt_Some. }
    erewrite bind_run; last first.
    { eapply setitem_run; [apply lookup_insert_eq|].
      rewrite length_insert. by eapply lookup_lt_Some. }
    rewrite insert_insert_eq.
    rewrite (IH rnd2 _ (<[j:=y]> (<[i:=x]> l))) by apply lookup_insert_eq.
    destruct (swap_list _ _ _ _) as [[l' rnd']| |]; [|done..].
    by rewrite insert_insert_eq.
Qed.

Lemma make_dataset_run n pattern seed (h : heap) :
  make_dataset n pattern seed h =
    match dataset n pattern seed with
    | Ok l => Ok (fresh (dom h), <[fresh (dom h) := l]> h)
    | Raise e => Raise e
    | Stuck => Stuck
    end.
Proof.
  unfold make_dataset, dataset.
  repeat case_bool_decide; try done.
  - rewrite bind_pure_outcome. by destruct (random_list _ _).
  - rewrite (bind_run _ _ _ _ _ (alloc_run _ _)).
    unfold mbind at 1, St_bind.
    erewrite swap_loop_run by apply lookup_insert_eq.
    destruct (swap_list _ _ _ _) as [[l' rnd']| |]; simpl; [|done..].
    by rewrite insert_insert_eq.
Qed.

Lemma observe_make_dataset n pattern seed (h : heap) :
  observe (make_dataset n pattern seed h) = dataset n pattern seed.
Proof.
  rewrite make_dataset_run. destruct (dataset _ _ _) as [l| |]; simpl; [|done..].
  by rewrite lookup_insert_eq.
Qed.

End dataset_lemmas.

Lemma positions_differing_insert (l l0 : list Z) i x :
  (positions_differing (<[i:=x]> l) l0 ≤ S (positions_differing l l0))%nat.
Proof.
  unfold positions_differing. revert i l0.
  induction l as [|y l IH]; intros i l0; [simpl; lia|].
  destruct i as [|i], l0 as [|y0 l0]; simpl; try lia.
  - rewrite !filter_cons. repeat case_decide; simpl; lia.
  - specialize (IH i l0). rewrite !filter_cons. repeat case_decide; simpl; lia.
Qed.

Lemma positions_differing_refl (l : list Z) : positions_differing l l = 0%nat.
Proof.
  unfold positions_differing. induction l as [|x l IH]; [done|].
  simpl. rewrite filter_cons. by rewrite decide_False by (simpl; congruence).
Qed.

Section dataset_properties.
Context {rng : PRNG}.

Lemma swap_list_ok swaps n (l0 : list Z) : 0 < n → ∀ rnd l,
  length l = Z.to_nat n →
  ∃ l' rnd', swap_list swaps n rnd l = Ok (l', rnd') ∧ l' ≡ₚ l ∧
    length l' = Z.to_nat n ∧
    (positions_differing l' l0 ≤ positions_differing l l0 + 2 * swaps)%nat.
Proof.
  intros Hn. induction swaps as [|swaps IH]; intros rnd l Hlen.
  - exists l, rnd. split_and!; [done..|lia].
  - cbn [swap_list].
    destruct (randrange_ok n rnd Hn) as (i & rnd1 & Hi). rewrite Hi. simpl.
    destruct (randrange_ok n rnd1 Hn) as (j & rnd2 & Hj). rewrite Hj. simpl.
    apply randrange_lt in Hi, Hj.
    destruct (lookup_lt_is_Some_2 l i) as [y Hy]; [lia|].
    destruct (lookup_lt_is_Some_2 l j) as [x Hx]; [lia|].
    rewrite Hx, Hy.
    destruct (IH rnd2 (<[j:=y]> (<[i:=x]> l))) as (l' & rnd' & Hrun & Hp & Hlen' & Hd).
    { by rewrite !length_insert. }
    exists l', rnd'. split_and!; [done| |done|].
    + rewrite Hp. by apply Permutation_insert_swap.
    + pose proof (positions_differing_insert (<[i:=x]> l) l0 j y).
      pose proof (positions_differing_insert l l0 i x). lia.
Qed.

Lemma randint_ok a b rnd :
  a ≤ b → ∃ x rnd', randint a b rnd = Ok (x, rnd') ∧ a ≤ x ≤ b.
Proof.
  intros Hab. unfold randint.
  destruct (randrange_ok (b - a + 1) rnd) as (k & rnd' & Hk); [lia|].
  rewrite Hk. apply randrange_lt in Hk. simpl.
  exists (a + Z.of_nat k), rnd'. split; [done|lia].
Qed.

Lemma random_list_ok n : ∀ rnd,
  ∃ l, random_list n rnd = Ok l ∧ length l = n ∧ Forall (λ x, 0 ≤ x ≤ 1000000) l.
Proof.
  induction n as [|n IH]; intros rnd.
  - by exists [].
  - cbn [random_list].
    destruct (randint_ok 0 1000000 rnd) as (x & rnd' & -> & Hx); [lia|].
    destruct (IH rnd') as (l & Hl & Hlen & Hall).
    cbn [mbind outcome_bind]. rewrite Hl. cbn [mbind outcome_bind].
    exists (x :: l). split_and!; [done|simpl; lia|by constructor].
Qed.

Lemma length_range lo hi : length (range lo hi) = (hi - lo)%nat.
Proof. apply length_seq. Qed.

Lemma length_int_range n : length (int_range n) = Z.to_nat n.
Proof. unfold int_range. rewrite length_fmap, length_range. lia. Qed.

Lemma length_int_range_down n : length (int_range_down n) = Z.to_nat n.
Proof. unfold int_range_down. rewrite length_fmap, length_rev, length_range. lia. Qed.

(** Every supported request returns [n] elements, except [nearly_sorted] of
    size 0. *)
Lemma dataset_ok n pattern seed :
  pattern ∈ supported_patterns →
  (pattern = "nearly_sorted"%string → 0 < n) →
  ∃ l, dataset n pattern seed = Ok l ∧ length l = Z.to_nat n.
Proof.
  intros Hin Hn. unfold dataset.
  case_bool_decide.
  { destruct (random_list_ok (Z.to_nat n) (rng_seed seed)) as (l & Hl & Hlen & _). eauto. }
  case_bool_decide.
  { eexists. split; [done|]. apply length_int_range. }
  case_bool_decide.
  { eexists. split; [done|]. apply length_int_range_down. }
  case_bool_decide as Hns.
  { destruct (swap_list_ok (Z.to_nat (Z.max 1 (n / 100))) n [] (Hn Hns) (rng_seed seed)
                (int_range n)) as (l & rnd' & Hrun & _ & Hlen & _).
    { apply length_int_range. }
    rewrite Hrun. by exists l. }
  unfold supported_patterns in Hin.
  rewrite !elem_of_cons, elem_of_nil in Hin.
  destruct Hin as [?|[?|[?|[?|[]]]]]; done.
Qed.

Lemma dataset_unknown n pattern seed :
  pattern ∉ supported_patterns → dataset n pattern seed = Raise ValueError.
Proof.
  intros Hin. unfold dataset.
  assert (∀ p, p ∈ supported_patterns → pattern ≠ p) as Hne by (by intros p Hp ->).
  rewrite !bool_decide_false; [done|apply Hne..]; by apply (bool_decide_unpack _).
Qed.

End dataset_properties.

(** ** Floating-point order *)

Lemma flt_irrefl x : flt x x = false.
Proof.
  unfold flt, SFltb. destruct x as [[]|[]| |[] m e]; simpl; try done.
  - by rewrite Z.compare_refl, Pos.compare_cont_refl.
  - by rewrite Z.compare_refl, Pos.compare_cont_refl.
Qed.

Lemma flt_trans x y z : flt x y = true → flt y z = true → flt x z = true.
Proof.
  unfold flt, SFltb.
  destruct x as [[]|[]| |[] mx ex], y as [[]|[]| |[] my ey], z as [[]|[]| |[] mz ez];
    simpl; try done.
  - destruct (Z.compare_spec ex ey), (Z.compare_spec ey ez), (Z.compare_spec ex ez);
      try done; try lia; subst.
    change (Pos.compare_cont Eq) with Pos.compare.
    destruct (Pos.compare_spec mx my), (Pos.compare_spec my mz), (Pos.compare_spec mx mz);
      simpl; try done; lia.
  - destruct (Z.compare_spec ex ey), (Z.compare_spec ey ez), (Z.compare_spec ex ez);
      try done; try lia; subst.
    change (Pos.compare_cont Eq) with Pos.compare.
    destruct (Pos.compare_spec mx my), (Pos.compare_spec my mz), (Pos.compare_spec mx mz);
      simpl; try done; lia.
Qed.

Lemma foldl_min_step_spec xs : ∀ cur seen,
  cur ∈ seen → (∀ t, t ∈ seen → flt t cur = false) →
  foldl min_step cur xs ∈ seen ++ xs ∧
  ∀ t, t ∈ seen ++ xs → flt t (foldl min_step cur xs) = false.
Proof.
  induction xs as [|item xs IH]; intros cur seen Hin Hmin; simpl.
  - rewrite (right_id_L [] (++)). done.
  - replace (seen ++ item :: xs) with ((seen ++ [item]) ++ xs)
      by (by rewrite <- (assoc_L (++))).
    apply IH; unfold min_step.
    + apply elem_of_app. destruct (flt item cur); [right; by left|by left].
    + intros t [Ht| ->%list_elem_of_singleton]%elem_of_app.
      * destruct (flt item cur) eqn:Hic; [|by apply Hmin].
        destruct (flt t item) eqn:Hti; [|done].
        rewrite <- (Hmin t Ht). symmetry. by eapply flt_trans.
      * destruct (flt item cur) eqn:Hic; [apply flt_irrefl|done].
Qed.

(** [min] returns an element of a non-empty list, and no element is smaller. *)
Lemma py_min_spec xs :
  xs ≠ [] → ∃ m, py_min xs = Ok m ∧ m ∈ xs ∧ ∀ t, t ∈ xs → flt t m = false.
Proof.
  destruct xs as [|x xs]; [done|]. intros _. eexists. split; [done|].
  apply (foldl_min_step_spec xs x [x]); [by left|].
  intros t ->%list_elem_of_singleton. apply flt_irrefl.
Qed.

(** ** Floating-point division *)

Lemma shr_1_nonneg mrs : 0 ≤ shr_m mrs → 0 ≤ shr_m (shr_1 mrs).
Proof. destruct mrs as [[|[p|p|]|p] r s]; simpl; lia. Qed.

Lemma iter_pos_shr_1_nonneg p : ∀ mrs, 0 ≤ shr_m mrs → 0 ≤ shr_m (iter_pos shr_1 p mrs).
Proof.
  induction p as [p IH|p IH|]; intros mrs Hm; simpl.
  - by apply IH, IH, shr_1_nonneg.
  - by apply IH, IH.
  - by apply shr_1_nonneg.
Qed.

Lemma shr_fexp_nonneg m e l :
  0 ≤ m → 0 ≤ shr_m (shr_fexp 53 1024 m e l).1.
Proof.
  intros Hm. unfold shr_fexp, shr.
  assert (0 ≤ shr_m (shr_record_of_loc m l)) as Hrec.
  { by destruct l as [|[]]. }
  destruct (fexp 53 1024 (Zdigits2 m + e) - e); simpl; [done| |done].
  by apply iter_pos_shr_1_nonneg.
Qed.

Lemma round_nearest_even_nonneg m l : 0 ≤ m → 0 ≤ round_nearest_even m l.
Proof.
  intros Hm. destruct l as [|[]]; simpl; try lia.
  destruct (Z.even m); lia.
Qed.

Lemma binary_round_aux_not_nan sx mx ex lx :
  0 ≤ mx → is_nan (binary_round_aux 53 1024 sx mx ex lx) = false.
Proof.
  intros Hm. unfold binary_round_aux.
  pose proof (shr_fexp_nonneg mx ex lx Hm) as H1.
  destruct (shr_fexp 53 1024 mx ex lx) as [mrs' e']. simpl in H1.
  pose proof (shr_fexp_nonneg _ e' loc_Exact
                (round_nearest_even_nonneg _ (loc_of_shr_record mrs') H1)) as H2.
  destruct (shr_fexp 53 1024 _ e' loc_Exact) as [mrs'' e'']. simpl in H2.
  destruct (shr_m mrs'') as [|m|m]; [done| |lia].
  by destruct (e'' <=? 1024 - 53).
Qed.

(** The quotient of two finite numbers that are not zero is a number. *)
Lemma SFdiv_finite_not_nan sx mx ex sy my ey :
  is_nan (SFdiv 53 1024 (S754_finite sx mx ex) (S754_finite sy my ey)) = false.
Proof.
  unfold SFdiv, SFdiv_core_binary.
  set (e' := Z.min _ _). set (s := ex - ey - e').
  set (m' := match s with Z0 => Z.pos mx | Z.pos _ => Z.shiftl (Z.pos mx) s | Z.neg _ => 0 end).
  assert (0 ≤ m') as Hm'.
  { unfold m'. destruct s; [lia| |lia]. by apply Z.shiftl_nonneg. }
  pose proof (Z_div_mod m' (Z.pos my)) as Hdiv.
  destruct (Z.div_eucl m' (Z.pos my)) as [q r].
  apply binary_round_aux_not_nan.
  destruct Hdiv as [Heq Hr]; [lia|]. nia.
Qed.

(** ** The timing harness *)

Lemma lift_heap_run {A} (m : M A) h clk rd tr a h' :
  m h = Ok (a, h') → lift_heap m (World h clk rd tr) = Ok (a, World h' clk rd tr).
Proof. intros H. unfold lift_heap. simpl. by rewrite H. Qed.

Lemma emit_run e h clk rd tr :
  emit e (World h clk rd tr) = Ok ((), World h clk rd (tr ++ [e])).
Proof. done. Qed.

Lemma timer_run h clk rd tr :
  timer (World h clk rd tr) = Ok (clk rd, World h clk (S rd) (tr ++ [EvTimer (clk rd)])).
Proof. done. Qed.

Lemma sort_call_contract f : sort_contract f → call_contract f.
Proof.
  intros Hf h arg d Harg.
  destruct (Hf h arg d Harg) as (r & h' & out & Hrun & Hsub & _). eauto.
Qed.

Section harness.
Context (f : loc → M loc) (Hf : call_contract f).
Context (data : loc) (d : list Z) (clk : nat → float).

Lemma stmt_run (h : heap) rd tr :
  h !! data = Some d →
  ∃ h', stmt f data (World h clk rd tr) =
          Ok ((), World h' clk rd (tr ++ [EvCopy data (fresh (dom h)); EvCall (fresh (dom h))])) ∧
    h ⊆ h' ∧ h' !! fresh (dom h) = Some d.
Proof.
  intros Hd. unfold stmt.
  erewrite bind_run by (eapply lift_heap_run; by eapply copy_run).
  set (a := fresh (dom h)). set (h1 := <[a:=d]> h).
  rewrite (bind_run _ _ _ _ _ (emit_run _ _ _ _ _)).
  rewrite (bind_run _ _ _ _ _ (emit_run _ _ _ _ _)).
  destruct (Hf h1 a d) as (r & h' & Hrun & Hsub); [apply lookup_insert_eq|].
  erewrite bind_run by (by eapply lift_heap_run).
  rewrite ret_run, <- (assoc_L (++)). simpl.
  exists h'. split_and!; [done| |].
  - etrans; [apply alloc_subseteq|done].
  - eapply lookup_weaken; [apply lookup_insert_eq|done].
Qed.

Lemma Timer_timeit_run (h : heap) rd tr :
  h !! data = Some d →
  ∃ h', Timer_timeit (stmt f data) 1 (World h clk rd tr) =
          Ok (trial_duration clk rd 0,
              World h' clk (rd + 2) (tr ++ trial_events clk rd data 0 (fresh (dom h)))) ∧
    h ⊆ h' ∧ h' !! fresh (dom h) = Some d.
Proof.
  intros Hd. unfold Timer_timeit.
  rewrite (bind_run _ _ _ _ _ (timer_run _ _ _ _)).
  destruct (stmt_run h (S rd) (tr ++ [EvTimer (clk rd)]) Hd) as (h' & Hrun & Hsub & Ha).
  change (range 0 1) with [0%nat]. cbn [for_].
  erewrite bind_run; last first.
  { erewrite bind_run by done. apply ret_run. }
  rewrite (bind_run _ _ _ _ _ (timer_run _ _ _ _)), ret_run.
  exists h'. split_and!; [|done..].
  unfold trial_duration, trial_events.
  rewrite !Nat.mul_0_r, !Nat.add_0_r, <- !(assoc_L (++)). simpl.
  by rewrite Nat.add_1_r, (Nat.add_comm rd 2).
Qed.

Lemma trial_events_shift rd k a :
  trial_events clk rd data (S k) a = trial_events clk (rd + 2) data k a.
Proof.
  unfold trial_events.
  by replace (rd + 2 * S k)%nat with (rd + 2 + 2 * k)%nat by lia.
Qed.

Lemma trial_duration_shift rd k :
  trial_duration clk rd (S k) = trial_duration clk (rd + 2) k.
Proof.
  unfold trial_duration.
  by replace (rd + 2 * S k)%nat with (rd + 2 + 2 * k)%nat by lia.
Qed.

Lemma Timer_repeat_loop_run n : ∀ s acc (h : heap) rd tr,
  h !! data = Some d →
  ∃ copies h',
    for_acc (seq s n) acc
      (λ r _, t ← Timer_timeit (stmt f data) 1; mret (r ++ [t])) (World h clk rd tr) =
      Ok (acc ++ (trial_duration clk rd <$> seq 0 n),
          World h' clk (rd + 2 * n)
            (tr ++ concat (imap (trial_events clk rd data) copies))) ∧
    length copies = n ∧ NoDup copies ∧
    (∀ a, a ∈ copies → h !! a = None ∧ h' !! a = Some d) ∧
    h ⊆ h'.
Proof.
  induction n as [|n IH]; intros s acc h rd tr Hd.
  - exists [], h. simpl. rewrite ret_run, !(right_id_L [] (++)), Nat.add_0_r.
    split_and!; [done|done|constructor| |done].
    by intros a ?%elem_of_nil.
  - destruct (Timer_timeit_run h rd tr Hd) as (h1 & Hrun1 & Hsub1 & Ha1).
    set (a := fresh (dom h)) in *.
    assert (h1 !! data = Some d) as Hd1 by (by eapply lookup_weaken).
    destruct (IH (S s) (acc ++ [trial_duration clk rd 0]) h1 (rd + 2)%nat
                (tr ++ trial_events clk rd data 0 a) Hd1)
      as (copies & h' & Hrun & Hlen & Hnd & Hfresh & Hsub).
    exists (a :: copies), h'. split_and!.
    + cbn [seq for_acc]. erewrite bind_run; last first.
      { erewrite bind_run by done. apply ret_run. }
      rewrite Hrun.
      assert ((trial_duration clk (rd + 2) <$> seq 0 n) =
              (trial_duration clk rd <$> seq 1 n)) as ->.
      { rewrite <- fmap_S_seq, <- list_fmap_compose.
        apply list_fmap_ext. intros i k _. simpl. by rewrite trial_duration_shift. }
      assert (imap (trial_events clk (rd + 2) data) copies =
              imap (trial_events clk rd data ∘ S) copies) as ->.
      { apply imap_ext. intros i k _. simpl. by rewrite trial_events_shift. }
      replace (rd + 2 + 2 * n)%nat with (rd + 2 * S n)%nat by lia.
      by rewrite <- !(assoc_L (++)).
    + simpl. lia.
    + constructor; [|done]. intros Hin.
      destruct (Hfresh a Hin) as [Hnone _]. congruence.
    + intros a' [->|Hin]%elem_of_cons.
      * split; [apply fresh_lookup|]. by eapply lookup_weaken.
      * destruct (Hfresh a' Hin) as [Hnone Hsome]. split; [|done].
        by eapply lookup_weaken_None.
    + by etrans.
Qed.

Lemma time_algorithm_run (h : heap) rd tr repeats :
  h !! data = Some d → 0 < repeats →
  ∃ t copies h',
    time_algorithm f data repeats (World h clk rd tr) =
      Ok (t, World h' clk (rd + 2 * Z.to_nat repeats)
               (tr ++ concat (imap (trial_events clk rd data) copies))) ∧
    length copies = Z.to_nat repeats ∧ NoDup copies ∧
    (∀ a, a ∈ copies → h !! a = None ∧ h' !! a = Some d) ∧
    h ⊆ h' ∧
    py_min (trial_duration clk rd <$> seq 0 (Z.to_nat repeats)) = Ok t.
Proof.
  intros Hd Hrep. unfold time_algorithm, Timer_repeat, range.
  rewrite Nat.sub_0_r.
  destruct (Timer_repeat_loop_run (Z.to_nat repeats) 0 [] h rd tr Hd)
    as (copies & h' & Hrun & Hlen & Hnd & Hfresh & Hsub).
  erewrite bind_run by done. simpl.
  destruct (py_min_spec (trial_duration clk rd <$> seq 0 (Z.to_nat repeats))) as (t & Ht & _).
  { destruct (Z.to_nat repeats) eqn:E; [lia|done]. }
  rewrite Ht. simpl. exists t, copies, h'. done.
Qed.

End harness.

(** ** The benchmark run *)

Lemma bind_inv {S A B} (m : St S A) (f : A → St S B) s b s' :
  (m ≫= f) s = Ok (b, s') → ∃ a s1, m s = Ok (a, s1) ∧ f a s1 = Ok (b, s').
Proof.
  unfold mbind, St_bind. destruct (m s) as [[a s1]| |]; [|done..]. eauto.
Qed.

(** A loop whose body appends rows with keys [K x] appends the rows of all
    its turns, in order. *)
Lemma for_acc_keys {S X} (K : X → list (string * Z * string))
    (body : list row → X → St S (list row)) xs :
  (∀ acc x s acc' s', x ∈ xs → body acc x s = Ok (acc', s') →
     ∃ new, acc' = acc ++ new ∧ key_of <$> new = K x) →
  ∀ acc s acc' s', for_acc xs acc body s = Ok (acc', s') →
    ∃ new, acc' = acc ++ new ∧ key_of <$> new = xs ≫= K.
Proof.
  induction xs as [|x xs IH]; intros Hbody acc s acc' s' Hrun.
  - simpl in Hrun. injection Hrun as <- <-. exists []. by rewrite (right_id_L [] (++)).
  - cbn [for_acc] in Hrun. apply bind_inv in Hrun as (acc1 & s1 & Hx & Hrun).
    apply Hbody in Hx as (new1 & -> & Hk1); [|by left].
    apply IH in Hrun as (new2 & -> & Hk2).
    + exists (new1 ++ new2). rewrite (assoc_L (++)). split; [done|].
      by rewrite fmap_app, Hk1, Hk2, bind_cons.
    + intros ??????. apply Hbody. by right.
Qed.

(** A loop runs to its end when every turn does; [Inv] is what the turns
    keep of the state. *)
Lemma for_acc_ok {S X B} (Inv : S → Prop) (body : B → X → St S B) xs :
  (∀ acc x s, x ∈ xs → Inv s → ∃ acc' s', body acc x s = Ok (acc', s') ∧ Inv s') →
  ∀ acc s, Inv s → ∃ acc' s', for_acc xs acc body s = Ok (acc', s') ∧ Inv s'.
Proof.
  induction xs as [|x xs IH]; intros Hbody acc s Hinv.
  - exists acc, s. done.
  - destruct (Hbody acc x s) as (acc1 & s1 & Hx & Hinv1); [by left|done|].
    destruct (IH (λ acc x s Hin, Hbody acc x s (list_elem_of_further _ _ _ Hin)) acc1 s1 Hinv1)
      as (acc' & s' & Hrun & Hinv').
    exists acc', s'. split; [|done]. cbn [for_acc]. by erewrite bind_run.
Qed.

Lemma ALGORITHMS_contract name f : (name, f) ∈ ALGORITHMS → sort_contract f.
Proof.
  unfold ALGORITHMS. rewrite !elem_of_cons, elem_of_nil.
  intros [[= _ ->]|[[= _ ->]|[[= _ ->]|[]]]].
  - apply insertion_sort_contract.
  - apply merge_sort_contract.
  - apply timsort_contract.
Qed.

Lemma time_algorithm_ok f data d repeats w :
  call_contract f → w_heap w !! data = Some d → 0 < repeats →
  ∃ t w', time_algorithm f data repeats w = Ok (t, w') ∧ w_heap w' !! data = Some d.
Proof.
  intros Hf Hd Hrep. destruct w as [h clk rd tr]. simpl in Hd.
  destruct (time_algorithm_run f Hf data d clk h rd tr repeats Hd Hrep)
    as (t & copies & h' & Hrun & _ & _ & _ & Hsub & _).
  eexists t, _. split; [done|]. simpl. by eapply lookup_weaken.
Qed.

Section benchmark_lemmas.
Context {rng : PRNG}.

Lemma measure_all_keys pattern n data repeats rows w rows' w' :
  measure_all pattern n data repeats rows w = Ok (rows', w') →
  ∃ new, rows' = rows ++ new ∧ key_of <$> new = small_keys pattern n.
Proof.
  intros Hrun.
  apply (for_acc_keys (λ p, [(pattern, n, p.1)])) in Hrun as (new & -> & Hk).
  - exists new. split; [done|]. rewrite Hk. done.
  - intros acc [name func] s acc' s' _ (t & s1 & _ & Hret)%bind_inv.
    injection Hret as <- <-. by exists [Row pattern n name t].
Qed.

Lemma measure_large_keys pattern n data repeats rows w rows' w' :
  measure_large pattern n data repeats rows w = Ok (rows', w') →
  ∃ new, rows' = rows ++ new ∧ key_of <$> new = large_keys pattern n.
Proof.
  intros Hrun.
  apply (for_acc_keys (λ p, if bool_decide (p.1 = "Insertion"%string) then []
                             else [(pattern, n, p.1)])) in Hrun as (new & -> & Hk).
  - exists new. split; [done|]. rewrite Hk. done.
  - intros acc [name func] s acc' s' _. simpl. case_bool_decide.
    + intros [= <- <-]. exists []. by rewrite (right_id_L [] (++)).
    + intros (t & s1 & _ & Hret)%bind_inv.
      injection Hret as <- <-. by exists [Row pattern n name t].
Qed.

Lemma run_benchmarks_keys sizes large_sizes patterns repeats w rows w' :
  run_benchmarks sizes large_sizes patterns repeats w = Ok (rows, w') →
  key_of <$> rows = expected_keys sizes large_sizes patterns.
Proof.
  intros Hrun. unfold run_benchmarks in Hrun.
  apply (for_acc_keys (λ pattern,
           (sizes ≫= small_keys pattern) ++ (large_sizes ≫= large_keys pattern)))
    in Hrun as (new & -> & Hk); [done|].
  intros acc pattern s acc' s' _ (acc1 & s1 & Hsmall & Hlarge)%bind_inv.
  apply (for_acc_keys (small_keys pattern)) in Hsmall as (new1 & -> & Hk1); last first.
  { intros ????? _ (data & s2 & _ & Hm)%bind_inv. by eapply measure_all_keys. }
  apply (for_acc_keys (large_keys pattern)) in Hlarge as (new2 & -> & Hk2); last first.
  { intros ????? _ (data & s2 & _ & Hm)%bind_inv. by eapply measure_large_keys. }
  exists (new1 ++ new2). rewrite (assoc_L (++)). split; [done|].
  by rewrite fmap_app, Hk1, Hk2.
Qed.

Lemma make_dataset_ok n pattern seed w :
  pattern ∈ supported_patterns →
  (pattern = "nearly_sorted"%string → 0 < n) →
  ∃ data d w', lift_heap (make_dataset n pattern seed) w = Ok (data, w') ∧
    w_heap w' !! data = Some d.
Proof.
  intros Hp Hn. destruct (dataset_ok n pattern seed Hp Hn) as (d & Hd & _).
  unfold lift_heap. rewrite make_dataset_run, Hd.
  eexists _, d, _. split; [done|]. simpl. apply lookup_insert_eq.
Qed.

Lemma measure_loop_ok (body_skip : bool) pattern n data d repeats rows w :
  w_heap w !! data = Some d → 0 < repeats →
  ∃ rows' w',
    (if body_skip then measure_large pattern n data repeats rows w
     else measure_all pattern n data repeats rows w) = Ok (rows', w').
Proof.
  intros Hd Hrep.
  destruct body_skip; unfold measure_large, measure_all.
  - destruct (for_acc_ok (λ w, w_heap w !! data = Some d)
      (λ rows '(name, func),
         if bool_decide (name = "Insertion"%string) then mret rows
         else t ← time_algorithm func data repeats; mret (rows ++ [Row pattern n name t]))
      ALGORITHMS) with (acc := rows) (s := w) as (rows' & w' & Hrun & _); [|done|eauto].
    intros acc [name func] s Hin Hinv. case_bool_decide; [by eexists _, _|].
    destruct (time_algorithm_ok func data d repeats s) as (t & s' & Ht & Hinv');
      [by eapply sort_call_contract, ALGORITHMS_contract|done..|].
    eexists _, s'. split; [|done]. by erewrite bind_run.
  - destruct (for_acc_ok (λ w, w_heap w !! data = Some d)
      (λ rows '(name, func),
         t ← time_algorithm func data repeats; mret (rows ++ [Row pattern n name t]))
      ALGORITHMS) with (acc := rows) (s := w) as (rows' & w' & Hrun & _); [|done|eauto].
    intros acc [name func] s Hin Hinv.
    destruct (time_algorithm_ok func data d repeats s) as (t & s' & Ht & Hinv');
      [by eapply sort_call_contract, ALGORITHMS_contract|done..|].
    eexists _, s'. split; [|done]. by erewrite bind_run.
Qed.

Lemma run_benchmarks_ok sizes large_sizes patterns repeats w :
  valid_config sizes large_sizes patterns repeats →
  ∃ rows w', run_benchmarks sizes large_sizes patterns repeats w = Ok (rows, w').
Proof.
  intros (Hpat & Hrep & Hns). unfold run_benchmarks.
  destruct (for_acc_ok (λ _ : world, True)
    (λ rows pattern,
       rows ← for_acc sizes rows (λ rows n,
         data ← lift_heap (make_dataset n pattern 123);
         measure_all pattern n data repeats rows);
       for_acc large_sizes rows (λ rows n,
         data ← lift_heap (make_dataset n pattern 777);
         measure_large pattern n data repeats rows)) patterns)
    with (acc := @nil row) (s := w) as (rows & w' & Hrun & _); [|done|eauto].
  intros acc pattern s Hin _.
  assert (pattern ∈ supported_patterns) as Hsup.
  { rewrite Forall_forall in Hpat. by apply Hpat. }
  assert (∀ n, n ∈ sizes ++ large_sizes → pattern = "nearly_sorted"%string → 0 < n)
    as Hpos.
  { intros n Hn ->. specialize (Hns Hin). rewrite Forall_forall in Hns. by apply Hns. }
  destruct (for_acc_ok (λ _ : world, True)
    (λ rows n, data ← lift_heap (make_dataset n pattern 123);
               measure_all pattern n data repeats rows) sizes)
    with (acc := acc) (s := s) as (acc1 & s1 & Hrun1 & _); [|done|].
  { intros acc0 n s0 Hn _.
    destruct (make_dataset_ok n pattern 123 s0) as (data & d & s2 & Hmk & Hd);
      [done|apply Hpos, elem_of_app; by left|].
    destruct (measure_loop_ok false pattern n data d repeats acc0 s2 Hd Hrep)
      as (rows' & s3 & Hm).
    exists rows', s3. split; [|done]. by erewrite bind_run. }
  destruct (for_acc_ok (λ _ : world, True)
    (λ rows n, data ← lift_heap (make_dataset n pattern 777);
               measure_large pattern n data repeats rows) large_sizes)
    with (acc := acc1) (s := s1) as (acc2 & s2 & Hrun2 & _); [|done|].
  { intros acc0 n s0 Hn _.
    destruct (make_dataset_ok n pattern 777 s0) as (data & d & s3 & Hmk & Hd);
      [done|apply Hpos, elem_of_app; by right|].
    destruct (measure_loop_ok true pattern n data d repeats acc0 s3 Hd Hrep)
      as (rows' & s4 & Hm).
    exists rows', s4. split; [|done]. by erewrite bind_run. }
  exists acc2, s2. split; [|done]. by erewrite bind_run.
Qed.

End benchmark_lemmas.

Lemma algorithm_names_NoDup : NoDup algorithm_names.
Proof. by apply (bool_decide_unpack _). Qed.

Lemma small_keys_key pattern n k :
  k ∈ small_keys pattern n → k.1 = (pattern, n).
Proof. unfold small_keys. intros (name & -> & _)%list_elem_of_fmap. done. Qed.

Lemma large_keys_key pattern n k :
  k ∈ large_keys pattern n → k.1 = (pattern, n).
Proof. unfold large_keys. intros (name & -> & _)%list_elem_of_fmap. done. Qed.

Lemma pattern_keys_key sizes large_sizes pattern k :
  k ∈ (sizes ≫= small_keys pattern) ++ (large_sizes ≫= large_keys pattern) →
  k.1.1 = pattern.
Proof.
  intros [(n & Hk & _)%list_elem_of_bind|(n & Hk & _)%list_elem_of_bind]%elem_of_app.
  - apply small_keys_key in Hk. by rewrite Hk.
  - apply large_keys_key in Hk. by rewrite Hk.
Qed.

Lemma expected_keys_NoDup sizes large_sizes patterns :
  NoDup patterns → NoDup (sizes ++ large_sizes) →
  NoDup (expected_keys sizes large_sizes patterns).
Proof.
  intros Hpat (Hs & Hdisj & Hl)%NoDup_app. unfold expected_keys.
  apply NoDup_bind; [| |done].
  - intros p1 p2 k _ _ H1 H2.
    apply pattern_keys_key in H1, H2. congruence.
  - intros pattern _. apply NoDup_app. split_and!.
    + apply NoDup_bind; [| |done].
      * intros n1 n2 k _ _ H1%small_keys_key H2%small_keys_key. congruence.
      * intros n _. unfold small_keys. eapply NoDup_fmap_2; [|apply algorithm_names_NoDup].
        by intros ?? [=].
    + intros k (n1 & H1%small_keys_key & Hn1)%list_elem_of_bind
               (n2 & H2%large_keys_key & Hn2)%list_elem_of_bind.
      apply (Hdisj n1 Hn1). congruence.
    + apply NoDup_bind; [| |done].
      * intros n1 n2 k _ _ H1%large_keys_key H2%large_keys_key. congruence.
      * intros n _. unfold large_keys. eapply NoDup_fmap_2; [by intros ?? [=]|].
        apply NoDup_filter, algorithm_names_NoDup.
Qed.

(** ** Growth factors *)

Lemma cell_time_run rows pattern n algo :
  cell_time rows pattern n algo = Ok (cell_min rows pattern n algo).
Proof.
  unfold cell_time, cell_min.
  destruct (cell_values rows pattern n algo) as [|x xs]; [done|].
  by rewrite bool_decide_false.
Qed.

Lemma growth_of_run rows pattern algo :
  growth_of rows pattern algo =
    g1 ← truediv (cell_min rows pattern 2000 algo) (cell_min rows pattern 1000 algo);
    g2 ← truediv (cell_min rows pattern 5000 algo) (cell_min rows pattern 2000 algo);
    Ok [ GrowthRow pattern algo "1k→2k" g1; GrowthRow pattern algo "2k→5k" g2 ].
Proof.
  unfold growth_of, ladder. cbn [fold_outcome].
  rewrite !cell_time_run. done.
Qed.

Lemma growth_of_cases rows pattern algo :
  growth_of rows pattern algo = Ok (growth_pair rows pattern algo) ∨
  growth_of rows pattern algo = Raise ZeroDivisionError.
Proof.
  rewrite growth_of_run. unfold truediv, growth_pair.
  destruct (SFeqb (cell_min rows pattern 1000 algo) fzero); [by right|].
  destruct (SFeqb (cell_min rows pattern 2000 algo) fzero); [by right|].
  by left.
Qed.

Lemma growth_of_ok rows pattern algo :
  SFeqb (cell_min rows pattern 1000 algo) fzero = false →
  SFeqb (cell_min rows pattern 2000 algo) fzero = false →
  growth_of rows pattern algo = Ok (growth_pair rows pattern algo).
Proof.
  intros H1 H2. rewrite growth_of_run. unfold truediv, growth_pair.
  by rewrite H1, H2.
Qed.

Lemma fold_outcome_cases {X B} (K : X → list B) (body : list B → X → outcome (list B)) e xs :
  (∀ acc x, body acc x = Ok (acc ++ K x) ∨ body acc x = Raise e) →
  ∀ acc, fold_outcome xs acc body = Ok (acc ++ (xs ≫= K)) ∨
         fold_outcome xs acc body = Raise e.
Proof.
  intros Hbody. induction xs as [|x xs IH]; intros acc.
  - left. simpl. by rewrite (right_id_L [] (++)).
  - cbn [fold_outcome]. destruct (Hbody acc x) as [-> | ->]; [|by right].
    simpl. rewrite ?bind_cons, (assoc_L (++)). apply IH.
Qed.

Lemma fold_outcome_ok {X B} (K : X → list B) (body : list B → X → outcome (list B)) xs :
  (∀ acc x, x ∈ xs → body acc x = Ok (acc ++ K x)) →
  ∀ acc, fold_outcome xs acc body = Ok (acc ++ (xs ≫= K)).
Proof.
  induction xs as [|x xs IH]; intros Hbody acc.
  - simpl. by rewrite (right_id_L [] (++)).
  - cbn [fold_outcome]. rewrite Hbody by (by left). simpl.
    rewrite ?bind_cons, (assoc_L (++)). apply IH.
    intros ???. apply Hbody. by right.
Qed.

(** [compute_growth] returns the expected growth rows or raises
    [ZeroDivisionError]; nothing else. *)
Lemma compute_growth_cases rows :
  compute_growth rows = Ok (expected_growth rows) ∨
  compute_growth rows = Raise ZeroDivisionError.
Proof.
  unfold compute_growth, expected_growth.
  refine (fold_outcome_cases
    (λ pattern, growth_algorithms ≫= λ algo, growth_pair rows pattern algo)
    _ ZeroDivisionError growth_patterns _ []).
  intros acc pattern.
  apply (fold_outcome_cases (λ algo, growth_pair rows pattern algo)).
  intros acc' algo. destruct (growth_of_cases rows pattern algo) as [-> | ->]; auto.
Qed.

(** It returns them when no minimum at the sizes 1000 and 2000 is zero. *)
Lemma compute_growth_ok rows :
  (∀ pattern algo n, pattern ∈ growth_patterns → algo ∈ growth_algorithms →
     n ∈ [1000; 2000] → SFeqb (cell_min rows pattern n algo) fzero = false) →
  compute_growth rows = Ok (expected_growth rows).
Proof.
  intros Hnz. unfold compute_growth, expected_growth.
  refine (fold_outcome_ok
    (λ pattern, growth_algorithms ≫= λ algo, growth_pair rows pattern algo)
    _ growth_patterns _ []).
  intros acc pattern Hp.
  apply (fold_outcome_ok (λ algo, growth_pair rows pattern algo)).
  intros acc' algo Ha.
  rewrite growth_of_ok; [done|apply Hnz..]; try done; [by left|by right; left].
Qed.

(** The expected growth rows are 18 rows: per pattern and algorithm the two
    pairs of the ladder; no row has the pattern [sorted]. *)
Lemma expected_growth_labels rows :
  label_of <$> expected_growth rows =
    growth_patterns ≫= λ pattern, growth_algorithms ≫= λ algo,
      [ (pattern, algo, "1k→2k"%string); (pattern, algo, "2k→5k"%string) ].
Proof. done. Qed.

Lemma expected_growth_length rows : length (expected_growth rows) = 18%nat.
Proof. done. Qed.

Lemma SFdiv_nan_r x : SFdiv 53 1024 x nan = nan.
Proof. by destruct x. Qed.

Lemma cell_min_missing rows pattern n algo :
  cell_values rows pattern n algo = [] → cell_min rows pattern n algo = nan.
Proof. unfold cell_min. by intros ->. Qed.

(** The entry of a cell that has rows is one of their durations, and none of
    them is smaller. *)
Lemma cell_min_spec rows pattern n algo :
  cell_values rows pattern n algo ≠ [] →
  cell_min rows pattern n algo ∈ cell_values rows pattern n algo ∧
  ∀ t, t ∈ cell_values rows pattern n algo → flt t (cell_min rows pattern n algo) = false.
Proof.
  intros Hne. destruct (py_min_spec _ Hne) as (m & Hm & Hin & Hle).
  unfold cell_min. destruct (cell_values rows pattern n algo) as [|x xs]; [done|].
  injection Hm as <-. done.
Qed.

(** A pattern and algorithm whose three ladder entries are finite numbers
    other than zero get ratios that are numbers. *)
Lemma expected_growth_numeric rows pattern algo g :
  (∀ n, n ∈ ladder → is_nonzero_finite (cell_min rows pattern n algo) = true) →
  g ∈ expected_growth rows → g_pattern g = pattern → g_algorithm g = algo →
  is_nan (g_growth g) = false.
Proof.
  intros Hfin Hg Hp Ha.
  assert (∀ n, n ∈ ladder → ∃ s m e, cell_min rows pattern n algo = S754_finite s m e)
    as Hcell.
  { intros n Hn. specialize (Hfin n Hn).
    destruct (cell_min rows pattern n algo) as [| | |s m e]; try done. eauto. }
  destruct (Hcell 1000) as (s0 & m0 & e0 & H0); [by left|].
  destruct (Hcell 2000) as (s1 & m1 & e1 & H1); [by right; left|].
  destruct (Hcell 5000) as (s2 & m2 & e2 & H2); [by right; right; left|].
  unfold expected_growth in Hg.
  apply list_elem_of_bind in Hg as (p & Hg & _).
  apply list_elem_of_bind in Hg as (a & Hg & _).
  unfold growth_pair in Hg.
  apply elem_of_cons in Hg as [->|Hg]; simpl in *; subst.
  - rewrite H0, H1. apply SFdiv_finite_not_nan.
  - apply list_elem_of_singleton in Hg as ->. simpl in *. subst.
    rewrite H1, H2. apply SFdiv_finite_not_nan.
Qed.

(** A cell with no row makes the ratio of every pair that touches it
    not-a-number. *)
Lemma expected_growth_missing rows pattern n algo g :
  cell_values rows pattern n algo = [] →
  g ∈ expected_growth rows → g_pattern g = pattern → g_algorithm g = algo →
  n ∈ pair_sizes (g_pair g) → g_growth g = nan.
Proof.
  intros Hmiss%cell_min_missing Hg Hp Ha Hn.
  unfold expected_growth in Hg.
  apply list_elem_of_bind in Hg as (p & Hg & _).
  apply list_elem_of_bind in Hg as (a & Hg & _).
  unfold growth_pair in Hg.
  apply elem_of_cons in Hg as [->|Hg]; simpl in *; subst.
  - apply elem_of_cons in Hn as [->|Hn].
    + by rewrite Hmiss, SFdiv_nan_r.
    + apply list_elem_of_singleton in Hn as ->. by rewrite Hmiss.
  - apply list_elem_of_singleton in Hg as ->. simpl in *. subst.
    apply elem_of_cons in Hn as [->|Hn].
    + by rewrite Hmiss, SFdiv_nan_r.
    + apply list_elem_of_singleton in Hn as ->. by rewrite Hmiss.
Qed.

(** * Main theorems *)

Lemma sort_contract_sorts f h arr d : sort_contract f → h !! arr = Some d → sorts f h arr d.
Proof.
  intros Hf Harr. destruct (Hf h arr d Harr) as (r & h' & out & Hrun & _ & _ & Hr & Hp & Hs).
  by exists r, h', out.
Qed.

Lemma sort_contract_keeps_input f h arr d :
  sort_contract f → h !! arr = Some d → keeps_input f h arr d.
Proof.
  intros Hf Harr. destruct (Hf h arr d Harr) as (r & h' & out & Hrun & Hsub & _).
  exists r, h'. split_and!; [done| |done]. by eapply lookup_weaken.
Qed.

(** C1: for each of the three sorting algorithms and every list [d] of
    integers held by a list object [arr], the call returns a list whose
    elements are a permutation of [d] in non-decreasing order. *)
Theorem sorts_permutation_sorted (h : heap) (arr : loc) (d : list Z) :
  h !! arr = Some d →
  sorts insertion_sort h arr d ∧ sorts merge_sort h arr d ∧ sorts timsort h arr d.
Proof.
  intros Harr. split_and!; apply sort_contract_sorts; try done.
  - apply insertion_sort_contract.
  - apply merge_sort_contract.
  - apply timsort_contract.
Qed.

Lemma sorts_permutation_sorted_witness :
  sorts insertion_sort example_heap 1%positive [3; 1; 2] ∧
  sorts merge_sort example_heap 1%positive [3; 1; 2] ∧
  sorts timsort example_heap 1%positive [3; 1; 2].
Proof. apply (sorts_permutation_sorted example_heap 1%positive [3; 1; 2]). reflexivity. Defined.

(** C6: for each of the three sorting algorithms and every input list, the
    caller's list holds the same elements after the call as before it; no
    list of the heap is changed. *)
Theorem sorts_keep_input (h : heap) (arr : loc) (d : list Z) :
  h !! arr = Some d →
  keeps_input insertion_sort h arr d ∧ keeps_input merge_sort h arr d ∧
  keeps_input timsort h arr d.
Proof.
  intros Harr. split_and!; apply sort_contract_keeps_input; try done.
  - apply insertion_sort_contract.
  - apply merge_sort_contract.
  - apply timsort_contract.
Qed.

Lemma sorts_keep_input_witness :
  keeps_input insertion_sort example_heap 1%positive [3; 1; 2] ∧
  keeps_input merge_sort example_heap 1%positive [3; 1; 2] ∧
  keeps_input timsort example_heap 1%positive [3; 1; 2].
Proof. apply (sorts_keep_input example_heap 1%positive [3; 1; 2]). reflexivity. Defined.

(** C2 (the code departs from the claim): [make_dataset] with size 0 and
    the supported pattern [nearly_sorted] raises [ValueError], for every seed:
    [max(1, 0 // 100)] asks for one swap and [randrange(0)] has nothing to
    draw. *)
Theorem make_dataset_nearly_sorted_empty_raises `{PRNG} (seed : Z) (h : heap) :
  make_dataset 0 "nearly_sorted" seed h = Raise ValueError.
Proof. reflexivity. Qed.

(** The rest of C2 holds: an unknown pattern raises [ValueError], and size 0
    gives the empty list for the other three patterns. *)
Lemma make_dataset_unknown_pattern `{PRNG} n pattern seed (h : heap) :
  pattern ∉ supported_patterns → make_dataset n pattern seed h = Raise ValueError.
Proof. intros Hp. by rewrite make_dataset_run, dataset_unknown. Qed.

Lemma make_dataset_empty `{PRNG} pattern seed (h : heap) :
  pattern ∈ ["random"; "sorted"; "reversed"]%string →
  observe (make_dataset 0 pattern seed h) = Ok [].
Proof.
  rewrite observe_make_dataset, !elem_of_cons, elem_of_nil.
  intros [->|[->|[->|[]]]]; reflexivity.
Qed.

(** C7: two calls of [make_dataset] with the same size, pattern and seed
    return the same elements (or raise the same exception), whatever the
    heaps they run in; for a supported pattern, [nearly_sorted] of size 0
    apart, they return [n] elements. *)
Theorem make_dataset_deterministic `{PRNG} (n : Z) (pattern : string) (seed : Z)
    (h1 h2 : heap) :
  observe (make_dataset n pattern seed h1) = observe (make_dataset n pattern seed h2) ∧
  (pattern ∈ supported_patterns → (pattern = "nearly_sorted"%string → 0 < n) →
   ∃ l, observe (make_dataset n pattern seed h1) = Ok l ∧ length l = Z.to_nat n).
Proof.
  rewrite !observe_make_dataset. split; [done|]. apply dataset_ok.
Qed.

Lemma dataset_nearly_sorted `{PRNG} n seed :
  0 < n →
  ∃ out, dataset n "nearly_sorted" seed = Ok out ∧
    out ≡ₚ int_range n ∧
    Z.of_nat (positions_differing out (int_range n)) ≤ 2 * (Z.max 1 (n / 100)).
Proof.
  intros Hn.
  destruct (swap_list_ok (Z.to_nat (Z.max 1 (n / 100))) n (int_range n) Hn (rng_seed seed)
              (int_range n)) as (l & rnd' & Hrun & Hp & _ & Hd).
  { apply length_int_range. }
  exists l. split_and!; [|done|].
  - unfold dataset. rewrite !bool_decide_false by done.
    rewrite bool_decide_true by done. by rewrite Hrun.
  - rewrite positions_differing_refl in Hd. lia.
Qed.

(** C8: for every seed, [make_dataset(1000, "nearly_sorted", seed)] is a
    permutation of the sorted dataset 0..999 and differs from it in at most
    20 positions. *)
Theorem nearly_sorted_1000_close_to_sorted `{PRNG} (seed : Z) (h : heap) :
  ∃ out srt,
    observe (make_dataset 1000 "nearly_sorted" seed h) = Ok out ∧
    observe (make_dataset 1000 "sorted" seed h) = Ok srt ∧
    srt = Z.of_nat <$> seq 0 1000 ∧
    out ≡ₚ srt ∧ (positions_differing out srt ≤ 20)%nat.
Proof.
  destruct (dataset_nearly_sorted 1000 seed) as (out & Hrun & Hp & Hd); [lia|].
  exists out, (Z.of_nat <$> seq 0 1000).
  rewrite !observe_make_dataset. split_and!; [done|done|done|done|].
  change (2 * (Z.max 1 (1000 / 100))) with 20 in Hd.
  change (Z.of_nat <$> seq 0 1000) with (int_range 1000). lia.
Qed.

(** C3 as stated fails: the copy is made inside the timed region.  In the
    run of [time_algorithm(insertion_sort, data, repeats=1)] on the list
    [[2; 1]] the trace is reading, copy, call, reading: the copy lies between
    the two readings of the clock whose difference is the duration. *)
Lemma time_algorithm_copy_is_timed :
  ∃ t w' a,
    time_algorithm insertion_sort 1%positive 1 example_world = Ok (t, w') ∧
    w_trace w' =
      [ EvTimer (example_clock 0); EvCopy 1%positive a; EvCall a;
        EvTimer (example_clock 1) ] ∧
    copies_untimed false (w_trace w') = false.
Proof.
  destruct (time_algorithm_run insertion_sort
              (sort_call_contract _ insertion_sort_contract)
              1%positive [2; 1] example_clock {[ 1%positive := [2; 1] ]} 0 [] 1)
    as (t & copies & h' & Hrun & Hlen & _); [done|lia|].
  destruct copies as [|a [|??]]; try done.
  eexists t, _, a. split; [exact Hrun|]. done.
Qed.

(** C3 (amended): for every registered algorithm, every dataset and every
    positive [repeats], [time_algorithm] runs exactly [repeats] trials.  A
    trial reads the clock, copies the dataset into a new list, calls the sort
    once on that copy and reads the clock again, so the copy is made inside
    the timed region; the copies are new, pairwise distinct lists that hold
    the dataset's elements, and the dataset is unchanged.  The result is the
    minimum of the durations of the trials. *)
Theorem time_algorithm_trials (name : string) (f : loc → M loc) (data : loc)
    (d : list Z) (repeats : Z) (w : world) :
  (name, f) ∈ ALGORITHMS → w_heap w !! data = Some d → 0 < repeats →
  ∃ t w' copies,
    time_algorithm f data repeats w = Ok (t, w') ∧
    Z.of_nat (length copies) = repeats ∧ NoDup copies ∧
    (∀ a, a ∈ copies → w_heap w !! a = None ∧ w_heap w' !! a = Some d) ∧
    w_trace w' =
      w_trace w ++ concat (imap (trial_events (w_clock w) (w_reads w) data) copies) ∧
    t ∈ (trial_duration (w_clock w) (w_reads w) <$> seq 0 (length copies)) ∧
    (∀ k, (k < length copies)%nat →
       flt (trial_duration (w_clock w) (w_reads w) k) t = false) ∧
    w_heap w' !! data = Some d.
Proof.
  intros Hin Hd Hrep. destruct w as [h clk rd tr]. simpl in *.
  destruct (time_algorithm_run f (sort_call_contract _ (ALGORITHMS_contract _ _ Hin))
              data d clk h rd tr repeats Hd Hrep)
    as (t & copies & h' & Hrun & Hlen & Hnd & Hfresh & Hsub & Hmin).
  destruct (py_min_spec (trial_duration clk rd <$> seq 0 (Z.to_nat repeats)))
    as (m & Hm & Hel & Hle).
  { destruct (Z.to_nat repeats) eqn:E; [lia|done]. }
  assert (m = t) as -> by congruence.
  eexists t, _, copies. split; [exact Hrun|]. simpl. rewrite Hlen.
  split_and!; [lia|done..| |by eapply lookup_weaken].
  intros k Hk. apply Hle, list_elem_of_fmap_2, elem_of_seq. lia.
Qed.

Lemma time_algorithm_trials_witness :
  ∃ t w', time_algorithm merge_sort 1%positive 2 example_world = Ok (t, w').
Proof.
  destruct (time_algorithm_trials "Merge" merge_sort 1%positive [2; 1] 2 example_world)
    as (t & w' & copies & Hrun & _).
  - right. left.
  - reflexivity.
  - lia.
  - exists t, w'. exact Hrun.
Defined.

Lemma rows_of_size_keys (n : Z) (rows : list row) :
  length (filter (λ r, r_n r = n) rows) =
  length (filter (λ k, k.1.2 = n) (key_of <$> rows)).
Proof.
  induction rows as [|r rows IH]; [done|].
  rewrite fmap_cons, !filter_cons. simpl.
  destruct (decide (r_n r = n)); simpl; by rewrite IH.
Qed.

(** C4: the rows of a run are in pattern-major order, within a pattern the
    small sizes before the large sizes, within a size the algorithms in
    registration order; every algorithm is measured at a small size and every
    algorithm but [Insertion] at a large size.  A run on a valid
    configuration returns; whenever a run returns, its rows are in that
    order; and the run with sizes [10], large sizes [100] and patterns
    [sorted] returns 3 rows of size 10 followed by 2 rows of size 100. *)
Theorem run_benchmarks_row_order `{PRNG} :
  (∀ sizes large_sizes patterns repeats w,
     valid_config sizes large_sizes patterns repeats →
     ∃ rows w', run_benchmarks sizes large_sizes patterns repeats w = Ok (rows, w') ∧
       key_of <$> rows = expected_keys sizes large_sizes patterns) ∧
  (∀ sizes large_sizes patterns repeats w rows w',
     run_benchmarks sizes large_sizes patterns repeats w = Ok (rows, w') →
     key_of <$> rows = expected_keys sizes large_sizes patterns) ∧
  (∀ repeats w, 0 < repeats →
     ∃ rows w',
       run_benchmarks [10] [100] ["sorted"%string] repeats w = Ok (rows, w') ∧
       key_of <$> rows =
         [ ("sorted"%string, 10, "Insertion"%string); ("sorted"%string, 10, "Merge"%string);
           ("sorted"%string, 10, "Timsort (built-in)"%string);
           ("sorted"%string, 100, "Merge"%string);
           ("sorted"%string, 100, "Timsort (built-in)"%string) ] ∧
       length (filter (λ r, r_n r = 10) rows) = 3%nat ∧
       length (filter (λ r, r_n r = 100) rows) = 2%nat).
Proof.
  assert (∀ sizes large_sizes patterns repeats w,
     valid_config sizes large_sizes patterns repeats →
     ∃ rows w', run_benchmarks sizes large_sizes patterns repeats w = Ok (rows, w') ∧
       key_of <$> rows = expected_keys sizes large_sizes patterns) as Hvalid.
  { intros sizes large_sizes patterns repeats w Hv.
    destruct (run_benchmarks_ok sizes large_sizes patterns repeats w Hv) as (rows & w' & Hrun).
    exists rows, w'. split; [done|]. by eapply run_benchmarks_keys. }
  split_and!; [exact Hvalid|apply @run_benchmarks_keys|].
  intros repeats w Hrep.
  destruct (Hvalid [10] [100] ["sorted"%string] repeats w) as (rows & w' & Hrun & Hk).
  { split_and!; [|done|].
    - by apply (bool_decide_unpack _).
    - intros Hin. exfalso. revert Hin. by apply (bool_decide_unpack _). }
  exists rows, w'. split_and!; [done|exact Hk|..].
  - by rewrite rows_of_size_keys, Hk.
  - by rewrite rows_of_size_keys, Hk.
Qed.

Lemma run_benchmarks_row_order_witness :
  ∃ rows w',
    run_benchmarks (rng := lcg) [1] [2] ["sorted"%string] 1 example_world = Ok (rows, w') ∧
    key_of <$> rows = expected_keys [1] [2] ["sorted"%string].
Proof.
  apply (proj1 (run_benchmarks_row_order (H := lcg))).
  split_and!.
  - by apply (bool_decide_unpack _).
  - lia.
  - intros Hin. exfalso. revert Hin. by apply (bool_decide_unpack _).
Defined.

(** C9 as stated fails: a size listed both as a small and as a large size is
    measured twice for [Merge] and for [Timsort (built-in)]. *)
Lemma run_benchmarks_duplicate_rows :
  ∃ rows w',
    run_benchmarks (rng := lcg) [1] [1] ["sorted"%string] 1 example_world = Ok (rows, w') ∧
    key_of <$> rows =
      [ ("sorted"%string, 1, "Insertion"%string); ("sorted"%string, 1, "Merge"%string);
        ("sorted"%string, 1, "Timsort (built-in)"%string);
        ("sorted"%string, 1, "Merge"%string);
        ("sorted"%string, 1, "Timsort (built-in)"%string) ] ∧
    ¬ NoDup (key_of <$> rows).
Proof.
  destruct (run_benchmarks_ok (rng := lcg) [1] [1] ["sorted"%string] 1 example_world)
    as (rows & w' & Hrun).
  { split_and!; [|lia|].
    - by apply (bool_decide_unpack _).
    - intros Hin. exfalso. revert Hin. by apply (bool_decide_unpack _). }
  exists rows, w'. split; [done|].
  rewrite (run_benchmarks_keys _ _ _ _ _ _ _ Hrun). split; [done|].
  by apply (bool_decide_unpack _).
Qed.

(** C9 (amended): when the patterns are pairwise distinct and the small and
    large sizes are pairwise distinct and have no size in common, the rows a
    run returns have pairwise distinct (pattern, size, algorithm) keys. *)
Theorem run_benchmarks_keys_unique `{PRNG} (sizes large_sizes : list Z)
    (patterns : list string) (repeats : Z) (w : world) (rows : list row) (w' : world) :
  NoDup patterns → NoDup (sizes ++ large_sizes) →
  run_benchmarks sizes large_sizes patterns repeats w = Ok (rows, w') →
  NoDup (key_of <$> rows).
Proof.
  intros Hp Hs Hrun. rewrite (run_benchmarks_keys _ _ _ _ _ _ _ Hrun).
  by apply expected_keys_NoDup.
Qed.

Lemma run_benchmarks_keys_unique_witness : NoDup (key_of <$> example_rows).
Proof.
  apply (run_benchmarks_keys_unique (H := lcg) [1] [2] ["sorted"%string] 1
           example_world example_rows example_final).
  - by apply (bool_decide_unpack _).
  - by apply (bool_decide_unpack _).
  - vm_compute. reflexivity.
Defined.

(** C10 (the code departs from the claim): on a row set with a duration of
    0.0 at a ladder size [compute_growth] raises [ZeroDivisionError] and
    returns no growth row. *)
Theorem compute_growth_zero_duration_raises :
  compute_growth [Row "random" 1000 "Insertion" fzero] = Raise ZeroDivisionError.
Proof. vm_compute. reflexivity. Qed.

(** C5 (the code departs from the claim): with a duration of 0.0 recorded at
    size 1000 and no row at size 2000, the ratio of the pair 1k→2k, which
    touches the missing cell, is the division of not-a-number by 0.0:
    [compute_growth] raises [ZeroDivisionError] instead of emitting
    not-a-number. *)
Theorem compute_growth_missing_cell_raises :
  let rows := [Row "random" 1000 "Insertion" fzero] in
  cell_values rows "random" 2000 "Insertion" = [] ∧
  truediv (cell_min rows "random" 2000 "Insertion") (cell_min rows "random" 1000 "Insertion")
    = Raise ZeroDivisionError ∧
  compute_growth rows = Raise ZeroDivisionError.
Proof. vm_compute. done. Qed.

(** * Further properties *)

(** ** More on the sorting algorithms *)

Lemma sort_contract_observe f (h : heap) arr d :
  sort_contract f → h !! arr = Some d → observe (f arr h) = Ok (sorted_list d).
Proof.
  intros Hf Harr. destruct (Hf h arr d Harr) as (r & h' & out & -> & _ & _ & Hr & Hp & Hs).
  simpl. rewrite Hr. f_equal. by apply sorted_unique.
Qed.

(** X1: [_merge] returns a new list that holds the elements of both
    arguments, changes no list of the heap, and is in non-decreasing order
    when both arguments are; the two arguments may be the same list. *)
Theorem merge_sorted_permutation (h : heap) (left right : loc) (l r : list Z) :
  h !! left = Some l → h !! right = Some r →
  ∃ res h' out,
    _merge left right h = Ok (res, h') ∧ h !! res = None ∧ h ⊆ h' ∧
    h' !! res = Some out ∧ out ≡ₚ l ++ r ∧
    (StronglySorted Z.le l → StronglySorted Z.le r → StronglySorted Z.le out).
Proof.
  intros Hl Hr.
  destruct (_merge_run h left right l r Hl Hr) as (res & h' & Hrun & Hsub & Hfresh & Hres).
  exists res, h', (list_merge Z.le l r).
  split_and!; [done..|apply merge_Permutation|].
  intros Hsl Hsr. apply Sorted_StronglySorted; [apply _|].
  apply Sorted_list_merge; [apply _|by apply StronglySorted_Sorted..].
Qed.

Lemma merge_sorted_permutation_witness :
  ∃ res h' out,
    _merge 1%positive 2%positive {[ 1%positive := [1; 3]; 2%positive := [2; 4] ]} = Ok (res, h') ∧
    h' !! res = Some out ∧ out ≡ₚ [1; 3] ++ [2; 4].
Proof.
  destruct (merge_sorted_permutation {[ 1%positive := [1; 3]; 2%positive := [2; 4] ]}
              1%positive 2%positive [1; 3] [2; 4])
    as (res & h' & out & Hrun & _ & _ & Hres & Hp & _).
  - reflexivity.
  - reflexivity.
  - by exists res, h', out.
Defined.

(** X2: on every input the three sorting algorithms return lists with the
    same elements in the same order. *)
Theorem sorts_agree (h : heap) (arr : loc) (d : list Z) :
  h !! arr = Some d →
  ∃ out,
    observe (insertion_sort arr h) = Ok out ∧
    observe (merge_sort arr h) = Ok out ∧
    observe (timsort arr h) = Ok out.
Proof.
  intros Harr. exists (sorted_list d).
  split_and!; apply sort_contract_observe; try done.
  - apply insertion_sort_contract.
  - apply merge_sort_contract.
  - apply timsort_contract.
Qed.

Lemma sorts_agree_witness :
  ∃ out,
    observe (insertion_sort 1%positive example_heap) = Ok out ∧
    observe (merge_sort 1%positive example_heap) = Ok out ∧
    observe (timsort 1%positive example_heap) = Ok out.
Proof. apply (sorts_agree example_heap 1%positive [3; 1; 2]). reflexivity. Defined.

(** X3: a list that is already in non-decreasing order is returned with its
    elements unchanged by each of the three sorting algorithms. *)
Theorem sorts_fix_sorted_input (h : heap) (arr : loc) (d : list Z) :
  h !! arr = Some d → StronglySorted Z.le d →
  observe (insertion_sort arr h) = Ok d ∧
  observe (merge_sort arr h) = Ok d ∧
  observe (timsort arr h) = Ok d.
Proof.
  intros Harr Hs.
  assert (sorted_list d = d) as Hd by (symmetry; by apply sorted_unique).
  assert (∀ f, sort_contract f → observe (f arr h) = Ok d) as Hf.
  { intros f Hc. by rewrite (sort_contract_observe f h arr d), Hd. }
  split_and!; apply Hf.
  - apply insertion_sort_contract.
  - apply merge_sort_contract.
  - apply timsort_contract.
Qed.

Lemma sorts_fix_sorted_input_witness :
  observe (insertion_sort 1%positive {[ 1%positive := [1; 2; 2] ]}) = Ok [1; 2; 2] ∧
  observe (merge_sort 1%positive {[ 1%positive := [1; 2; 2] ]}) = Ok [1; 2; 2] ∧
  observe (timsort 1%positive {[ 1%positive := [1; 2; 2] ]}) = Ok [1; 2; 2].
Proof.
  apply (sorts_fix_sorted_input {[ 1%positive := [1; 2; 2] ]} 1%positive [1; 2; 2]).
  - reflexivity.
  - by apply (bool_decide_unpack _).
Defined.

(** X4: the list each of the three sorting algorithms returns is a new
    object: no list that was there before the call, so neither the argument
    nor any other list of the caller. *)
Theorem sorts_return_new_object (h : heap) (arr : loc) (d : list Z) :
  h !! arr = Some d →
  returns_new insertion_sort h arr ∧ returns_new merge_sort h arr ∧
  returns_new timsort h arr.
Proof.
  intros Harr.
  assert (∀ f, sort_contract f → returns_new f h arr) as Hf.
  { intros f Hc. destruct (Hc h arr d Harr) as (r & h' & out & Hrun & _ & Hnew & Hr & _).
    exists r, h'. split_and!; [done|done| |by eexists]. intros ->. congruence. }
  split_and!; apply Hf.
  - apply insertion_sort_contract.
  - apply merge_sort_contract.
  - apply timsort_contract.
Qed.

Lemma sorts_return_new_object_witness :
  returns_new insertion_sort example_heap 1%positive ∧
  returns_new merge_sort example_heap 1%positive ∧
  returns_new timsort example_heap 1%positive.
Proof. apply (sorts_return_new_object example_heap 1%positive [3; 1; 2]). reflexivity. Defined.

(** ** More on the datasets *)

Lemma sorted_fmap_seq a k : StronglySorted Z.le (Z.of_nat <$> seq a k).
Proof.
  revert a. induction k as [|k IH]; intros a; simpl; constructor; [apply IH|].
  apply Forall_fmap, Forall_forall. intros i Hi%elem_of_seq. simpl. lia.
Qed.

Lemma sorted_list_int_range n : sorted_list (int_range n) = int_range n.
Proof. symmetry. apply sorted_unique; [done|]. apply sorted_fmap_seq. Qed.

Lemma sorted_list_int_range_down n :
  sorted_list (int_range_down n) = Z.of_nat <$> seq 1 (Z.to_nat n).
Proof.
  symmetry. apply sorted_unique; [|apply sorted_fmap_seq].
  unfold int_range_down, range. rewrite Nat.sub_succ, Nat.sub_0_r.
  apply fmap_Permutation. by rewrite <- Permutation_rev.
Qed.

Section dataset_extras.
Context {rng : PRNG}.

Lemma dataset_nearly_sorted_nonpositive n seed :
  n ≤ 0 → dataset n "nearly_sorted" seed = Raise ValueError.
Proof.
  intros Hn. unfold dataset. rewrite !bool_decide_false by done.
  rewrite bool_decide_true by done.
  assert (Z.max 1 (n / 100) = 1) as ->.
  { pose proof (Z.div_le_upper_bound n 100 0). lia. }
  simpl. unfold randrange. by rewrite bool_decide_false by lia.
Qed.

(** When [make_dataset] returns and when it raises. *)
Lemma dataset_cases n pattern seed :
  (pattern ∈ supported_patterns ∧ (pattern = "nearly_sorted"%string → 0 < n) ∧
     ∃ l, dataset n pattern seed = Ok l ∧ length l = Z.to_nat n) ∨
  ((pattern ∉ supported_patterns ∨ (pattern = "nearly_sorted"%string ∧ n ≤ 0)) ∧
     dataset n pattern seed = Raise ValueError).
Proof.
  destruct (decide (pattern ∈ supported_patterns)) as [Hin|Hin].
  - destruct (decide (pattern = "nearly_sorted"%string ∧ n ≤ 0)) as [[-> Hn]|Hn].
    + right. split; [by right|]. by apply dataset_nearly_sorted_nonpositive.
    + left. assert (pattern = "nearly_sorted"%string → 0 < n) as Hpos.
      { intros ->. destruct (decide (0 < n)); [done|]. exfalso. apply Hn. split; [done|lia]. }
      split_and!; [done..|]. by apply dataset_ok.
  - right. split; [by left|]. by apply dataset_unknown.
Qed.

(** X5: the [random] dataset of size [n] has [n] elements (none when
    [n <= 0]), each between 0 and 1 000 000. *)
Theorem random_dataset_bounds (n seed : Z) (h : heap) :
  ∃ l, observe (make_dataset n "random" seed h) = Ok l ∧
    length l = Z.to_nat n ∧ Forall (λ x, 0 ≤ x ≤ 1000000) l.
Proof.
  rewrite observe_make_dataset.
  destruct (random_list_ok (Z.to_nat n) (rng_seed seed)) as (l & Hl & Hlen & Hall).
  by exists l.
Qed.

(** X6: [make_dataset] returns a list of [n] elements when the pattern is
    one of the four supported ones and, for [nearly_sorted], the size is
    positive; in every other case (an unknown pattern, or [nearly_sorted]
    with a size of 0 or less) it raises [ValueError]. *)
Theorem make_dataset_returns_or_raises (n : Z) (pattern : string) (seed : Z) (h : heap) :
  (pattern ∈ supported_patterns ∧ (pattern = "nearly_sorted"%string → 0 < n) ∧
     ∃ l, observe (make_dataset n pattern seed h) = Ok l ∧ length l = Z.to_nat n) ∨
  ((pattern ∉ supported_patterns ∨ (pattern = "nearly_sorted"%string ∧ n ≤ 0)) ∧
     make_dataset n pattern seed h = Raise ValueError).
Proof.
  rewrite observe_make_dataset, make_dataset_run.
  destruct (dataset_cases n pattern seed) as [(Hin & Hn & l & Hl & Hlen)|[Hbad Hr]].
  - left. split_and!; [done..|]. by exists l.
  - right. split; [done|]. by rewrite Hr.
Qed.

(** X7: sorting the [reversed] dataset of size [n] gives [1, ..., n], and
    sorting the [sorted] dataset returns it unchanged, with each of the three
    algorithms. *)
Theorem sort_of_generated_dataset (n seed : Z) (h : heap) :
  (∃ data h1,
     make_dataset n "reversed" seed h = Ok (data, h1) ∧
     observe (insertion_sort data h1) = Ok (Z.of_nat <$> seq 1 (Z.to_nat n)) ∧
     observe (merge_sort data h1) = Ok (Z.of_nat <$> seq 1 (Z.to_nat n)) ∧
     observe (timsort data h1) = Ok (Z.of_nat <$> seq 1 (Z.to_nat n))) ∧
  (∃ data h1,
     make_dataset n "sorted" seed h = Ok (data, h1) ∧
     h1 !! data = Some (int_range n) ∧
     observe (insertion_sort data h1) = Ok (int_range n) ∧
     observe (merge_sort data h1) = Ok (int_range n) ∧
     observe (timsort data h1) = Ok (int_range n)).
Proof.
  split.
  - eexists _, _. split; [by rewrite make_dataset_run|].
    rewrite <- sorted_list_int_range_down.
    split_and!; apply sort_contract_observe;
      first [apply insertion_sort_contract|apply merge_sort_contract
            |apply timsort_contract|apply lookup_insert_eq].
  - eexists _, _. split; [by rewrite make_dataset_run|].
    split; [apply lookup_insert_eq|].
    assert (∀ f hh a, sort_contract f → hh !! a = Some (int_range n) →
              observe (f a hh) = Ok (int_range n)) as Hf.
    { intros f hh a Hc Ha.
      by rewrite (sort_contract_observe f hh a _ Hc Ha), sorted_list_int_range. }
    split_and!; apply Hf;
      first [apply insertion_sort_contract|apply merge_sort_contract
            |apply timsort_contract|apply lookup_insert_eq].
Qed.

(** X8: for every size [n > 0] the [nearly_sorted] dataset is a permutation
    of the [sorted] dataset [0, ..., n - 1] and differs from it in at most
    [2 * max(1, n // 100)] positions. *)
Theorem nearly_sorted_close_to_sorted (n seed : Z) (h : heap) :
  0 < n →
  ∃ out srt,
    observe (make_dataset n "nearly_sorted" seed h) = Ok out ∧
    observe (make_dataset n "sorted" seed h) = Ok srt ∧
    length out = Z.to_nat n ∧ out ≡ₚ srt ∧
    Z.of_nat (positions_differing out srt) ≤ 2 * Z.max 1 (n / 100).
Proof.
  intros Hn. destruct (dataset_nearly_sorted n seed Hn) as (out & Hrun & Hp & Hd).
  exists out, (int_range n). rewrite !observe_make_dataset.
  split_and!; [done|done| |done|done].
  by rewrite Hp, length_int_range.
Qed.

End dataset_extras.

Lemma nearly_sorted_close_to_sorted_witness :
  ∃ out srt,
    observe (make_dataset (rng := lcg) 5 "nearly_sorted" 42 ∅) = Ok out ∧
    observe (make_dataset (rng := lcg) 5 "sorted" 42 ∅) = Ok srt ∧
    length out = 5%nat ∧ out ≡ₚ srt ∧
    Z.of_nat (positions_differing out srt) ≤ 2.
Proof. apply (nearly_sorted_close_to_sorted (rng := lcg) 5 42 ∅). lia. Defined.

(** ** More on the benchmark run *)

Lemma bind_raise {S A B} (m : St S A) (f : A → St S B) s e :
  m s = Raise e → (m ≫= f) s = Raise e.
Proof. intros H. unfold mbind, St_bind. by rewrite H. Qed.

(** A loop whose turns return or raise [e] returns or raises [e]. *)
Lemma for_acc_outcome {S X B} (Inv : S → Prop) (e : exn) (body : B → X → St S B) xs :
  (∀ acc x s, x ∈ xs → Inv s →
     (∃ acc' s', body acc x s = Ok (acc', s') ∧ Inv s') ∨ body acc x s = Raise e) →
  ∀ acc s, Inv s →
    (∃ acc' s', for_acc xs acc body s = Ok (acc', s') ∧ Inv s') ∨
    for_acc xs acc body s = Raise e.
Proof.
  induction xs as [|x xs IH]; intros Hbody acc s Hinv.
  - left. by exists acc, s.
  - cbn [for_acc].
    destruct (Hbody acc x s) as [(acc1 & s1 & Hx & Hinv1)|Hx]; [by left|done| |].
    + erewrite bind_run by done. apply IH; [|done].
      intros acc0 x0 s0 Hin0 Hinv0. apply (Hbody acc0 x0 s0); [by right|done].
    + right. by apply bind_raise.
Qed.

(** Every turn of a loop that returns has returned. *)
Lemma for_acc_turn {S X B} (body : B → X → St S B) xs x :
  x ∈ xs → ∀ acc s r, for_acc xs acc body s = Ok r →
  ∃ acc0 s0 r0, body acc0 x s0 = Ok r0.
Proof.
  induction xs as [|y xs IH]; intros Hin acc s [acc' s'] Hrun; [by apply elem_of_nil in Hin|].
  cbn [for_acc] in Hrun. apply bind_inv in Hrun as (acc1 & s1 & Hy & Hrun).
  apply elem_of_cons in Hin as [->|Hin]; [by eexists _, _, _|].
  by eapply IH.
Qed.

(** A loop whose turns are related by a preorder relates its ends. *)
Lemma for_acc_rel {S X B} (R : B * S → B * S → Prop) (body : B → X → St S B) xs :
  (∀ p, R p p) → (∀ p q r, R p q → R q r → R p r) →
  (∀ acc x s acc' s', x ∈ xs → body acc x s = Ok (acc', s') → R (acc, s) (acc', s')) →
  ∀ acc s acc' s', for_acc xs acc body s = Ok (acc', s') → R (acc, s) (acc', s').
Proof.
  intros Hrefl Htrans. induction xs as [|x xs IH]; intros Hbody acc s acc' s' Hrun.
  - simpl in Hrun. injection Hrun as <- <-. apply Hrefl.
  - cbn [for_acc] in Hrun. apply bind_inv in Hrun as (acc1 & s1 & Hx & Hrun).
    apply (Htrans _ (acc1, s1)); [apply (Hbody acc x s); [by left|done]|].
    apply IH; [|done]. intros acc0 x0 s0 acc2 s2 Hin0. apply (Hbody acc0 x0 s0). by right.
Qed.

Lemma calls_app tr1 tr2 : calls (tr1 ++ tr2) = (calls tr1 + calls tr2)%nat.
Proof. induction tr1 as [|[]]; simpl; lia. Qed.

(** *** What a measurement costs *)

Lemma lift_heap_inv {A} (m : M A) w a w' :
  lift_heap m w = Ok (a, w') → ∃ h', m (w_heap w) = Ok (a, h') ∧ w' = set_heap w h'.
Proof.
  unfold lift_heap. destruct (m (w_heap w)) as [[a' h']| |]; [|done..].
  intros [= -> <-]. eauto.
Qed.

Lemma stmt_cost f data w u w' :
  stmt f data w = Ok (u, w') →
  w_clock w' = w_clock w ∧ w_reads w' = w_reads w ∧
  calls (w_trace w') = S (calls (w_trace w)).
Proof.
  unfold stmt. intros Hrun.
  apply bind_inv in Hrun as (a & w1 & (h1 & _ & ->)%lift_heap_inv & Hrun).
  apply bind_inv in Hrun as ([] & w2 & [= <-] & Hrun).
  apply bind_inv in Hrun as ([] & w3 & [= <-] & Hrun).
  apply bind_inv in Hrun as (r & w4 & (h4 & _ & ->)%lift_heap_inv & [= _ <-]).
  simpl. rewrite !calls_app. simpl. split_and!; [done..|lia].
Qed.

Lemma Timer_timeit_cost f data w t w' :
  Timer_timeit (stmt f data) 1 w = Ok (t, w') →
  w_clock w' = w_clock w ∧ w_reads w' = (w_reads w + 2)%nat ∧
  calls (w_trace w') = S (calls (w_trace w)) ∧
  t = trial_duration (w_clock w) (w_reads w) 0.
Proof.
  unfold Timer_timeit. intros Hrun.
  apply bind_inv in Hrun as (t0 & w1 & [= <- <-] & Hrun).
  apply bind_inv in Hrun as ([] & w2 & Hfor & Hrun).
  apply bind_inv in Hrun as (t1 & w3 & [= <- <-] & [= <- <-]).
  cbn in Hfor. apply bind_inv in Hfor as ([] & w4 & Hs%stmt_cost & [= <-]).
  destruct Hs as (Hc & Hr & Hcalls). simpl in *.
  rewrite calls_app in *. simpl in *. split_and!; [done|lia|lia|].
  unfold trial_duration. rewrite Hc, Hr, !Nat.mul_0_r, !Nat.add_0_r, Nat.add_1_r. done.
Qed.

Lemma Timer_repeat_cost f data xs : ∀ acc w acc' w',
  for_acc xs acc (λ r (_ : nat), t ← Timer_timeit (stmt f data) 1; mret (r ++ [t])) w
    = Ok (acc', w') →
  acc' = acc ++ (trial_duration (w_clock w) (w_reads w) <$> seq 0 (length xs)) ∧
  w_clock w' = w_clock w ∧ w_reads w' = (w_reads w + 2 * length xs)%nat ∧
  calls (w_trace w') = (calls (w_trace w) + length xs)%nat.
Proof.
  induction xs as [|x xs IH]; intros acc w acc' w' Hrun.
  - simpl in Hrun. injection Hrun as <- <-. simpl. rewrite (right_id_L [] (++)).
    split_and!; [done|done|lia|lia].
  - cbn [for_acc] in Hrun. apply bind_inv in Hrun as (acc1 & w1 & Hx & Hrun).
    apply bind_inv in Hx as (t & w2 & (Hc & Hr & Hcalls & ->)%Timer_timeit_cost & [= <- <-]).
    apply IH in Hrun as (-> & Hc' & Hr' & Hcalls').
    cbn [length seq fmap list_fmap]. split_and!; [|congruence|lia|lia].
    rewrite <- (assoc_L (++)). simpl. do 2 f_equal.
    rewrite <- fmap_S_seq, <- list_fmap_compose.
    apply list_fmap_ext. intros i k _. simpl.
    rewrite Hc, Hr. unfold trial_duration.
    by replace (w_reads w + 2 * S k)%nat with (w_reads w + 2 + 2 * k)%nat by lia.
Qed.

Lemma time_algorithm_cost f data repeats w t w' :
  time_algorithm f data repeats w = Ok (t, w') →
  0 < repeats ∧ measured repeats w t w'.
Proof.
  unfold time_algorithm, Timer_repeat. intros Hrun.
  apply bind_inv in Hrun as (times & w1 & Hrep & Hmin).
  apply Timer_repeat_cost in Hrep as (-> & Hc & Hr & Hcalls).
  rewrite length_range, Nat.sub_0_r in *. simpl in Hmin.
  unfold pure_outcome in Hmin.
  destruct (py_min _) as [m| |] eqn:Hm; [|done..]. injection Hmin as -> ->.
  split.
  - destruct (Z.to_nat repeats) eqn:E; [done|lia].
  - unfold measured. split_and!; [done|lia|lia|done].
Qed.

Lemma grows_refl repeats p : grows repeats p p.
Proof.
  exists []. rewrite (right_id_L [] (++)). simpl. split_and!; [done|done|lia|lia|done].
Qed.

Lemma grows_trans repeats p q r : grows repeats p q → grows repeats q r → grows repeats p r.
Proof.
  intros (new1 & Hl1 & Hc1 & Hr1 & Hcalls1 & Ht1) (new2 & Hl2 & Hc2 & Hr2 & Hcalls2 & Ht2).
  exists (new1 ++ new2). rewrite length_app.
  split_and!; [by rewrite Hl2, Hl1, (assoc_L (++))|congruence|lia|lia|].
  intros i row Hi. apply lookup_app_Some in Hi as [Hi|[Hge Hi]]; [by apply Ht1|].
  apply Ht2 in Hi. rewrite Hc1, Hr1 in Hi. rewrite <- Hi.
  assert (∃ j, i = (length new1 + j)%nat) as [j ->] by (exists (i - length new1)%nat; lia).
  replace (length new1 + j - length new1)%nat with j by lia.
  f_equal. f_equal. lia.
Qed.

Lemma grows_one repeats rows r w w' :
  measured repeats w (r_time_sec r) w' → grows repeats (rows, w) (rows ++ [r], w').
Proof.
  intros (Hc & Hr & Hcalls & Ht).
  exists [r]. simpl. split_and!; [done|done|lia|lia|].
  intros i r' Hi. destruct i as [|i]; [|done]. injection Hi as <-.
  by rewrite Nat.mul_0_r, Nat.add_0_r.
Qed.

Lemma grows_set_heap repeats rows w h' : grows repeats (rows, w) (rows, set_heap w h').
Proof.
  exists []. rewrite (right_id_L [] (++)). simpl. split_and!; [done|done|lia|lia|done].
Qed.

Section cost_lemmas.
Context {rng : PRNG}.

Lemma measure_all_cost pattern n data repeats rows w rows' w' :
  measure_all pattern n data repeats rows w = Ok (rows', w') →
  grows repeats (rows, w) (rows', w').
Proof.
  unfold measure_all.
  apply (for_acc_rel (grows repeats)); [apply grows_refl|apply grows_trans|].
  intros acc [name func] s acc' s' _ Hrun.
  apply bind_inv in Hrun as (t & s1 & [_ Hm]%time_algorithm_cost & [= <- <-]).
  by apply (grows_one repeats acc (Row pattern n name t)).
Qed.

Lemma measure_large_cost pattern n data repeats rows w rows' w' :
  measure_large pattern n data repeats rows w = Ok (rows', w') →
  grows repeats (rows, w) (rows', w').
Proof.
  unfold measure_large.
  apply (for_acc_rel (grows repeats)); [apply grows_refl|apply grows_trans|].
  intros acc [name func] s acc' s' _ Hrun. case_bool_decide.
  - injection Hrun as <- <-. apply grows_refl.
  - apply bind_inv in Hrun as (t & s1 & [_ Hm]%time_algorithm_cost & [= <- <-]).
    by apply (grows_one repeats acc (Row pattern n name t)).
Qed.

Lemma run_benchmarks_grows sizes large_sizes patterns repeats w rows w' :
  run_benchmarks sizes large_sizes patterns repeats w = Ok (rows, w') →
  grows repeats ([], w) (rows, w').
Proof.
  unfold run_benchmarks.
  apply (for_acc_rel (grows repeats)); [apply grows_refl|apply grows_trans|].
  intros acc pattern s acc' s' _ Hrun.
  apply bind_inv in Hrun as (acc1 & s1 & Hsmall & Hlarge).
  apply (grows_trans _ _ (acc1, s1)).
  - revert Hsmall. apply (for_acc_rel (grows repeats)); [apply grows_refl|apply grows_trans|].
    intros acc0 n s0 acc2 s2 _ Hrun.
    apply bind_inv in Hrun as (data & s3 & (h3 & _ & ->)%lift_heap_inv & Hm).
    eapply grows_trans; [apply grows_set_heap|]. by eapply measure_all_cost.
  - revert Hlarge. apply (for_acc_rel (grows repeats)); [apply grows_refl|apply grows_trans|].
    intros acc0 n s0 acc2 s2 _ Hrun.
    apply bind_inv in Hrun as (data & s3 & (h3 & _ & ->)%lift_heap_inv & Hm).
    eapply grows_trans; [apply grows_set_heap|]. by eapply measure_large_cost.
Qed.

(** X9: a run that returns has read the clock exactly [2 * repeats] times
    and called a sorting function exactly [repeats] times for each row it
    returns: nothing but the trials reads the clock. *)
Theorem run_benchmarks_cost (sizes large_sizes : list Z) (patterns : list string)
    (repeats : Z) (w : world) (rows : list row) (w' : world) :
  run_benchmarks sizes large_sizes patterns repeats w = Ok (rows, w') →
  w_reads w' = (w_reads w + 2 * Z.to_nat repeats * length rows)%nat ∧
  calls (w_trace w') = (calls (w_trace w) + Z.to_nat repeats * length rows)%nat.
Proof.
  intros (new & Hnew & _ & Hr & Hc & _)%run_benchmarks_grows.
  cbn [fst snd app] in *. by subst new.
Qed.

(** X10: the duration in row [k] of a run (counted from 0) is the minimum of
    the durations of the [repeats] trials of that row, and the trials of the
    rows follow one another on the clock: trial [j] of row [k] lasts from
    reading [2 * (repeats * k + j)] to the next reading, counted from the
    start of the run. *)
Theorem run_benchmarks_durations (sizes large_sizes : list Z) (patterns : list string)
    (repeats : Z) (w : world) (rows : list row) (w' : world) (k : nat) (r : row) :
  run_benchmarks sizes large_sizes patterns repeats w = Ok (rows, w') →
  rows !! k = Some r →
  0 < repeats ∧
  is_minimum (r_time_sec r)
    (trial_durations (w_clock w) (w_reads w + 2 * Z.to_nat repeats * k) repeats).
Proof.
  intros (new & Hnew & _ & _ & _ & Ht)%run_benchmarks_grows Hk.
  cbn [fst snd app] in *. subst new.
  specialize (Ht k r Hk).
  assert (0 < repeats) as Hrep.
  { destruct (decide (0 < repeats)); [done|]. unfold trial_durations in Ht.
    replace (Z.to_nat repeats) with 0%nat in Ht by lia. done. }
  split; [done|].
  destruct (py_min_spec (trial_durations (w_clock w)
              (w_reads w + 2 * Z.to_nat repeats * k) repeats)) as (m & Hm & Hin & Hle).
  { unfold trial_durations. destruct (Z.to_nat repeats) eqn:E; [lia|done]. }
  rewrite Hm in Ht. injection Ht as ->. done.
Qed.

End cost_lemmas.

Lemma run_benchmarks_cost_witness :
  w_reads example_final = (w_reads example_world + 2 * Z.to_nat 1 * length example_rows)%nat ∧
  calls (w_trace example_final) =
    (calls (w_trace example_world) + Z.to_nat 1 * length example_rows)%nat.
Proof.
  apply (run_benchmarks_cost (rng := lcg) [1] [2] ["sorted"%string] 1).
  vm_compute. reflexivity.
Defined.

Lemma run_benchmarks_durations_witness :
  0 < 1 ∧
  is_minimum (r_time_sec example_row)
    (trial_durations (w_clock example_world) (w_reads example_world + 2 * Z.to_nat 1 * 1) 1).
Proof.
  apply (run_benchmarks_durations (rng := lcg) [1] [2] ["sorted"%string] 1 example_world
           example_rows example_final 1 example_row).
  - vm_compute. reflexivity.
  - vm_compute. reflexivity.
Defined.

Lemma length_bind_const {A B} (f : A → list B) (c : nat) (l : list A) :
  (∀ x, length (f x) = c) → length (l ≫= f) = (length l * c)%nat.
Proof.
  intros Hf. induction l as [|x l IH]; [done|].
  rewrite bind_cons, length_app, Hf, IH. simpl. lia.
Qed.

Lemma expected_keys_length sizes large_sizes patterns :
  length (expected_keys sizes large_sizes patterns) =
  (length patterns * (3 * length sizes + 2 * length large_sizes))%nat.
Proof.
  unfold expected_keys. apply length_bind_const. intros pattern.
  rewrite length_app, (length_bind_const _ 3), (length_bind_const _ 2); [lia|done..].
Qed.

(** X11: a run that returns has one row per pattern, small size and
    algorithm and one per pattern, large size and algorithm other than
    [Insertion]: [len(patterns) * (3 * len(sizes) + 2 * len(large_sizes))]
    rows, repeated sizes and patterns counted as often as they are listed. *)
Theorem run_benchmarks_row_count `{PRNG} (sizes large_sizes : list Z)
    (patterns : list string) (repeats : Z) (w : world) (rows : list row) (w' : world) :
  run_benchmarks sizes large_sizes patterns repeats w = Ok (rows, w') →
  length rows = (length patterns * (3 * length sizes + 2 * length large_sizes))%nat.
Proof.
  intros Hrun%run_benchmarks_keys.
  by rewrite <- (length_fmap key_of), Hrun, expected_keys_length.
Qed.

Lemma run_benchmarks_row_count_witness :
  length example_rows = (length ["sorted"%string] * (3 * length [1] + 2 * length [2]))%nat.
Proof.
  apply (run_benchmarks_row_count (H := lcg) [1] [2] ["sorted"%string] 1
           example_world example_rows example_final).
  vm_compute. reflexivity.
Defined.

Lemma time_algorithm_no_repeats f data repeats w :
  repeats ≤ 0 → time_algorithm f data repeats w = Raise ValueError.
Proof.
  intros Hrep. unfold time_algorithm, Timer_repeat, range.
  assert (Z.to_nat repeats = 0%nat) as -> by lia. reflexivity.
Qed.

(** X12: with [repeats <= 0] no trial is run, and [time_algorithm] raises
    [ValueError] ([min] of an empty list), whatever the function and the
    data. *)
Theorem time_algorithm_without_repeats (f : loc → M loc) (data : loc) (repeats : Z)
    (w : world) :
  repeats ≤ 0 → time_algorithm f data repeats w = Raise ValueError.
Proof.
  intros Hrep. unfold time_algorithm, Timer_repeat, range.
  replace (Z.to_nat repeats) with 0%nat by lia.
  cbn [Nat.sub seq for_acc]. rewrite (bind_run _ _ _ _ _ (ret_run _ _)).
  reflexivity.
Qed.

Lemma time_algorithm_without_repeats_witness :
  time_algorithm insertion_sort 1%positive 0 example_world = Raise ValueError.
Proof. apply (time_algorithm_without_repeats insertion_sort 1%positive 0 example_world). lia. Defined.

(** X13: an exception raised by the timed function in the first trial is
    raised by [time_algorithm]: the harness catches nothing. *)
Theorem time_algorithm_propagates (f : loc → M loc) (data : loc) (d : list Z)
    (repeats : Z) (w : world) (e : exn) :
  w_heap w !! data = Some d → 0 < repeats →
  f (fresh (dom (w_heap w))) (<[fresh (dom (w_heap w)) := d]> (w_heap w)) = Raise e →
  time_algorithm f data repeats w = Raise e.
Proof.
  intros Hd Hrep Hf. destruct w as [h clk rd tr]. simpl in *.
  unfold time_algorithm, Timer_repeat, range.
  destruct (Z.to_nat repeats) as [|k] eqn:Hk; [lia|].
  rewrite Nat.sub_0_r. cbn [seq for_acc].
  do 3 apply bind_raise. unfold Timer_timeit.
  erewrite bind_run by apply timer_run.
  apply bind_raise. cbn [range Nat.sub seq for_].
  apply bind_raise. unfold stmt.
  erewrite bind_run by (apply lift_heap_run, copy_run, Hd).
  erewrite bind_run by apply emit_run.
  erewrite bind_run by apply emit_run.
  apply bind_raise. unfold lift_heap. simpl. by rewrite Hf.
Qed.

Lemma time_algorithm_propagates_witness :
  time_algorithm (λ a, getitem a 5;; mret a) 1%positive 3 example_world = Raise IndexError.
Proof.
  apply (time_algorithm_propagates (λ a, getitem a 5;; mret a) 1%positive [2; 1] 3
           example_world IndexError).
  - reflexivity.
  - lia.
  - vm_compute. reflexivity.
Defined.

Section outcome_lemmas.
Context {rng : PRNG}.

Lemma lift_make_dataset_outcome n pattern seed w :
  (pattern ∈ supported_patterns ∧ (pattern = "nearly_sorted"%string → 0 < n) ∧
     ∃ data d w', lift_heap (make_dataset n pattern seed) w = Ok (data, w') ∧
       w_heap w' !! data = Some d) ∨
  lift_heap (make_dataset n pattern seed) w = Raise ValueError.
Proof.
  unfold lift_heap. rewrite make_dataset_run.
  destruct (dataset_cases n pattern seed) as [(Hin & Hn & l & -> & _)|[_ ->]]; [left|by right].
  split_and!; [done..|]. eexists _, l, _. split; [done|]. simpl. apply lookup_insert_eq.
Qed.

Lemma measure_all_no_repeats pattern n data repeats rows w :
  repeats ≤ 0 → measure_all pattern n data repeats rows w = Raise ValueError.
Proof.
  intros Hrep. unfold measure_all, ALGORITHMS. cbn [for_acc].
  do 2 apply bind_raise. by apply time_algorithm_no_repeats.
Qed.

Lemma measure_large_no_repeats pattern n data repeats rows w :
  repeats ≤ 0 → measure_large pattern n data repeats rows w = Raise ValueError.
Proof.
  intros Hrep. unfold measure_large, ALGORITHMS. cbn [for_acc].
  rewrite (bool_decide_true ("Insertion" = "Insertion")%string) by done.
  erewrite bind_run by apply ret_run.
  rewrite (bool_decide_false ("Merge" = "Insertion")%string) by done.
  do 2 apply bind_raise. by apply time_algorithm_no_repeats.
Qed.

Lemma measure_loop_outcome (body_skip : bool) pattern n data d repeats rows w :
  w_heap w !! data = Some d →
  (0 < repeats ∧ ∃ rows' w',
     (if body_skip then measure_large pattern n data repeats rows w
      else measure_all pattern n data repeats rows w) = Ok (rows', w')) ∨
  (if body_skip then measure_large pattern n data repeats rows w
   else measure_all pattern n data repeats rows w) = Raise ValueError.
Proof.
  intros Hd. destruct (decide (0 < repeats)) as [Hrep|Hrep].
  - left. split; [done|]. by eapply measure_loop_ok.
  - right. destruct body_skip;
      [apply measure_large_no_repeats|apply measure_all_no_repeats]; lia.
Qed.

(** A run returns or raises [ValueError]. *)
Lemma run_benchmarks_ok_or_ValueError sizes large_sizes patterns repeats w :
  (∃ rows w', run_benchmarks sizes large_sizes patterns repeats w = Ok (rows, w')) ∨
  run_benchmarks sizes large_sizes patterns repeats w = Raise ValueError.
Proof.
  unfold run_benchmarks.
  destruct (for_acc_outcome (λ _ : world, True) ValueError
    (λ rows pattern,
       rows ← for_acc sizes rows (λ rows n,
         data ← lift_heap (make_dataset n pattern 123);
         measure_all pattern n data repeats rows);
       for_acc large_sizes rows (λ rows n,
         data ← lift_heap (make_dataset n pattern 777);
         measure_large pattern n data repeats rows)) patterns)
    with (acc := @nil row) (s := w) as [(rows & w' & Hrun & _)|Hrun];
    [|done|left; eauto|by right].
  intros acc pattern s _ _.
  destruct (for_acc_outcome (λ _ : world, True) ValueError
    (λ rows n, data ← lift_heap (make_dataset n pattern 123);
               measure_all pattern n data repeats rows) sizes)
    with (acc := acc) (s := s) as [(acc1 & s1 & Hrun1 & _)|Hrun1]; [|done| |].
  { intros acc0 n s0 _ _.
    destruct (lift_make_dataset_outcome n pattern 123 s0)
      as [(_ & _ & data & d & s2 & Hmk & Hd)|Hmk]; [|right; by apply bind_raise].
    erewrite bind_run by done.
    destruct (measure_loop_outcome false pattern n data d repeats acc0 s2 Hd)
      as [(_ & rows' & s3 & Hm)|Hm]; [left|by right].
    by exists rows', s3. }
  2: { right. by apply bind_raise. }
  erewrite bind_run by done.
  destruct (for_acc_outcome (λ _ : world, True) ValueError
    (λ rows n, data ← lift_heap (make_dataset n pattern 777);
               measure_large pattern n data repeats rows) large_sizes)
    with (acc := acc1) (s := s1) as [(acc2 & s2 & Hrun2 & _)|Hrun2]; [|done| |].
  { intros acc0 n s0 _ _.
    destruct (lift_make_dataset_outcome n pattern 777 s0)
      as [(_ & _ & data & d & s3 & Hmk & Hd)|Hmk]; [|right; by apply bind_raise].
    erewrite bind_run by done.
    destruct (measure_loop_outcome true pattern n data d repeats acc0 s3 Hd)
      as [(_ & rows' & s4 & Hm)|Hm]; [left|by right].
    by exists rows', s4. }
  - left. by exists acc2, s2.
  - by right.
Qed.

Lemma make_dataset_ok_inv n pattern seed w data w' :
  lift_heap (make_dataset n pattern seed) w = Ok (data, w') →
  pattern ∈ supported_patterns ∧ (pattern = "nearly_sorted"%string → 0 < n).
Proof.
  intros Hrun.
  destruct (lift_make_dataset_outcome n pattern seed w) as [(? & ? & _)|Hr]; [done|].
  by rewrite Hr in Hrun.
Qed.

Lemma measure_all_ok_inv pattern n data repeats rows w r :
  measure_all pattern n data repeats rows w = Ok r → 0 < repeats.
Proof.
  intros Hrun. destruct (decide (0 < repeats)); [done|].
  rewrite measure_all_no_repeats in Hrun by lia. done.
Qed.

Lemma measure_large_ok_inv pattern n data repeats rows w r :
  measure_large pattern n data repeats rows w = Ok r → 0 < repeats.
Proof.
  intros Hrun. destruct (decide (0 < repeats)); [done|].
  rewrite measure_large_no_repeats in Hrun by lia. done.
Qed.

(** What a run that returns says of one pattern and one size. *)
Lemma run_benchmarks_turn sizes large_sizes patterns repeats w r pattern n :
  run_benchmarks sizes large_sizes patterns repeats w = Ok r →
  pattern ∈ patterns → n ∈ sizes ++ large_sizes →
  pattern ∈ supported_patterns ∧ (pattern = "nearly_sorted"%string → 0 < n) ∧ 0 < repeats.
Proof.
  unfold run_benchmarks. intros Hrun Hp Hn.
  destruct (for_acc_turn _ _ _ Hp _ _ _ Hrun) as (acc0 & s0 & [acc' s'] & Hturn).
  apply bind_inv in Hturn as (acc1 & s1 & Hsmall & Hlarge).
  apply elem_of_app in Hn as [Hn|Hn].
  - destruct (for_acc_turn _ _ _ Hn _ _ _ Hsmall) as (acc2 & s2 & [acc3 s3] & Hturn).
    apply bind_inv in Hturn as (data & s4 & [? ?]%make_dataset_ok_inv & ?%measure_all_ok_inv).
    done.
  - destruct (for_acc_turn _ _ _ Hn _ _ _ Hlarge) as (acc2 & s2 & [acc3 s3] & Hturn).
    apply bind_inv in Hturn as (data & s4 & [? ?]%make_dataset_ok_inv & ?%measure_large_ok_inv).
    done.
Qed.

Lemma run_benchmarks_ok_inv sizes large_sizes patterns repeats w r :
  run_benchmarks sizes large_sizes patterns repeats w = Ok r →
  has_work sizes large_sizes patterns →
  valid_config sizes large_sizes patterns repeats.
Proof.
  intros Hrun [Hp Hn].
  destruct patterns as [|p0 patterns]; [done|].
  destruct (sizes ++ large_sizes) as [|n0 ns] eqn:Hns; [done|].
  assert (∀ p n, p ∈ p0 :: patterns → n ∈ n0 :: ns →
    p ∈ supported_patterns ∧ (p = "nearly_sorted"%string → 0 < n) ∧ 0 < repeats) as Hturn.
  { intros p n Hpin Hnin. eapply run_benchmarks_turn; [done..|by rewrite Hns]. }
  split_and!.
  - apply Forall_forall. intros p Hpin.
    destruct (Hturn p n0 Hpin) as (Hsup & _); [by left|done].
  - destruct (Hturn p0 n0) as (_ & _ & Hrep); [by left..|done].
  - intros Hin. apply Forall_forall. intros n Hnin. rewrite Hns in Hnin.
    destruct (Hturn "nearly_sorted"%string n Hin Hnin) as (_ & Hpos & _). by apply Hpos.
Qed.

Lemma run_benchmarks_no_work sizes large_sizes patterns repeats w :
  ¬ has_work sizes large_sizes patterns →
  run_benchmarks sizes large_sizes patterns repeats w = Ok ([], w).
Proof.
  intros Hw. unfold run_benchmarks.
  destruct patterns as [|p0 patterns]; [done|].
  destruct sizes as [|n0 sizes]; [destruct large_sizes as [|n1 large_sizes]|].
  - generalize (p0 :: patterns). intros ps. induction ps as [|p ps IH]; [done|].
    cbn [for_acc]. erewrite bind_run; [apply IH|].
    erewrite bind_run by apply ret_run. apply ret_run.
  - exfalso. apply Hw. done.
  - exfalso. apply Hw. done.
Qed.

(** X14: [run_benchmarks] returns or raises [ValueError], nothing else.  With
    nothing to measure (no pattern, or no size at all) it returns no row and
    changes nothing.  Otherwise it returns exactly on the valid
    configurations: known patterns, [repeats >= 1], and positive sizes if
    [nearly_sorted] is among the patterns; on any other it raises
    [ValueError], and the rows measured before are lost. *)
Theorem run_benchmarks_outcome (sizes large_sizes : list Z) (patterns : list string)
    (repeats : Z) (w : world) :
  (¬ has_work sizes large_sizes patterns ∧
     run_benchmarks sizes large_sizes patterns repeats w = Ok ([], w)) ∨
  (has_work sizes large_sizes patterns ∧
     valid_config sizes large_sizes patterns repeats ∧
     ∃ rows w', run_benchmarks sizes large_sizes patterns repeats w = Ok (rows, w')) ∨
  (has_work sizes large_sizes patterns ∧
     ¬ valid_config sizes large_sizes patterns repeats ∧
     run_benchmarks sizes large_sizes patterns repeats w = Raise ValueError).
Proof.
  assert (Decision (has_work sizes large_sizes patterns)) as [Hw|Hw].
  { unfold has_work. apply _. }
  - right.
    destruct (run_benchmarks_ok_or_ValueError sizes large_sizes patterns repeats w)
      as [(rows & w' & Hrun)|Hrun].
    + left. split_and!; [done| |by eauto]. by eapply run_benchmarks_ok_inv.
    + right. split_and!; [done| |done].
      intros Hv. destruct (run_benchmarks_ok sizes large_sizes patterns repeats w Hv)
        as (rows & w' & Hok). by rewrite Hok in Hrun.
  - left. split; [done|]. by apply run_benchmarks_no_work.
Qed.

End outcome_lemmas.

(** ** More on the growth factors *)

Lemma fold_outcome_turn {X B} (body : B → X → outcome B) xs x :
  x ∈ xs → ∀ acc r, fold_outcome xs acc body = Ok r → ∃ acc0 r0, body acc0 x = Ok r0.
Proof.
  induction xs as [|y xs IH]; intros Hin acc r Hrun; [by apply elem_of_nil in Hin|].
  cbn [fold_outcome] in Hrun.
  destruct (body acc y) as [acc1| |] eqn:Hy; [|done..]. simpl in Hrun.
  apply elem_of_cons in Hin as [->|Hin]; [by eexists _, _|].
  by eapply IH.
Qed.

Lemma fold_outcome_ext {X B} (body1 body2 : B → X → outcome B) xs :
  (∀ acc x, x ∈ xs → body1 acc x = body2 acc x) →
  ∀ acc, fold_outcome xs acc body1 = fold_outcome xs acc body2.
Proof.
  induction xs as [|x xs IH]; intros Hbody acc; [done|].
  cbn [fold_outcome]. rewrite Hbody by (by left).
  destruct (body2 acc x) as [acc1| |]; [|done..]. simpl.
  apply IH. intros acc0 x0 Hin. apply Hbody. by right.
Qed.

Lemma growth_of_ok_inv rows pattern algo r :
  growth_of rows pattern algo = Ok r →
  SFeqb (cell_min rows pattern 1000 algo) fzero = false ∧
  SFeqb (cell_min rows pattern 2000 algo) fzero = false.
Proof.
  rewrite growth_of_run. unfold truediv.
  destruct (SFeqb (cell_min rows pattern 1000 algo) fzero); [done|].
  destruct (SFeqb (cell_min rows pattern 2000 algo) fzero); [done|].
  done.
Qed.

Lemma compute_growth_ok_inv rows out :
  compute_growth rows = Ok out → nonzero_divisors rows.
Proof.
  unfold compute_growth. intros Hrun pattern algo n Hp Ha Hn.
  destruct (fold_outcome_turn _ _ _ Hp _ _ Hrun) as (acc0 & r0 & Hturn).
  destruct (fold_outcome_turn _ _ _ Ha _ _ Hturn) as (acc1 & r1 & Hturn1).
  destruct (growth_of rows pattern algo) as [new| |] eqn:Hg; [|done..].
  apply growth_of_ok_inv in Hg as [H1 H2].
  apply elem_of_cons in Hn as [->|Hn]; [done|].
  by apply list_elem_of_singleton in Hn as ->.
Qed.

(** [compute_growth] reads its rows through the minima of the cells of the
    analysis only. *)
Lemma compute_growth_ext rows1 rows2 :
  (∀ pattern algo n, pattern ∈ growth_patterns → algo ∈ growth_algorithms → n ∈ ladder →
     cell_min rows1 pattern n algo = cell_min rows2 pattern n algo) →
  compute_growth rows1 = compute_growth rows2.
Proof.
  intros Hcell. unfold compute_growth.
  apply fold_outcome_ext. intros acc pattern Hp.
  apply fold_outcome_ext. intros acc' algo Ha.
  rewrite !growth_of_run.
  rewrite !(Hcell pattern algo) by first [done|by apply (bool_decide_unpack _)].
  done.
Qed.

Lemma cell_values_scope rows pattern n algo :
  pattern ∈ growth_patterns → n ∈ ladder → algo ∈ growth_algorithms →
  cell_values (filter in_growth_scope rows) pattern n algo = cell_values rows pattern n algo.
Proof.
  intros Hp Hn Ha. unfold cell_values. f_equal.
  induction rows as [|r rows IH]; [done|].
  rewrite !filter_cons.
  destruct (decide (in_growth_scope r)) as [Hs|Hs].
  - rewrite filter_cons. by rewrite IH.
  - rewrite IH. rewrite decide_False; [done|].
    intros (<- & <- & <-). by apply Hs.
Qed.

(** X15: [compute_growth] returns or raises [ZeroDivisionError], nothing
    else.  It returns exactly when no minimum that it divides by (sizes 1000
    and 2000, patterns random, reversed and nearly_sorted, each algorithm) is
    zero, and then the result has 18 rows: for each of the three patterns, in
    that order, and each algorithm the pairs 1k→2k and 2k→5k. *)
Theorem compute_growth_outcome (rows : list row) :
  (nonzero_divisors rows ∧
     ∃ out, compute_growth rows = Ok out ∧ length out = 18%nat ∧
       label_of <$> out =
         growth_patterns ≫= λ pattern, growth_algorithms ≫= λ algo,
           [ (pattern, algo, "1k→2k"%string); (pattern, algo, "2k→5k"%string) ]) ∨
  (¬ nonzero_divisors rows ∧ compute_growth rows = Raise ZeroDivisionError).
Proof.
  destruct (compute_growth_cases rows) as [Hrun|Hrun].
  - left. split; [by eapply compute_growth_ok_inv|].
    exists (expected_growth rows). split_and!; [done|done|apply expected_growth_labels].
  - right. split; [|done]. intros Hnz. apply compute_growth_ok in Hnz. congruence.
Qed.

(** X16: each ratio [compute_growth] returns is the IEEE quotient of the
    minimum duration at the larger size of its pair by the minimum at the
    smaller size, taken over the rows of its pattern and algorithm (so the
    smallest of duplicate rows counts); it is not-a-number when one of the
    two cells has no row. *)
Theorem compute_growth_values (rows : list row) (out : list growth_row) (g : growth_row) :
  compute_growth rows = Ok out → g ∈ out →
  ∃ n1 n2, pair_sizes (g_pair g) = [n1; n2] ∧
    let vals1 := cell_values rows (g_pattern g) n1 (g_algorithm g) in
    let vals2 := cell_values rows (g_pattern g) n2 (g_algorithm g) in
    (vals1 = [] ∨ vals2 = [] → g_growth g = nan) ∧
    (vals1 ≠ [] → vals2 ≠ [] →
       ∃ t1 t2, is_minimum t1 vals1 ∧ is_minimum t2 vals2 ∧
         g_growth g = SFdiv 53 1024 t2 t1).
Proof.
  intros Hrun Hg.
  destruct (compute_growth_cases rows) as [Hok|Hraise]; [|congruence].
  rewrite Hok in Hrun. injection Hrun as <-.
  unfold expected_growth in Hg.
  apply list_elem_of_bind in Hg as (p & Hg & _).
  apply list_elem_of_bind in Hg as (a & Hg & _).
  unfold growth_pair in Hg.
  assert (∀ n1 n2,
    (cell_values rows p n1 a = [] ∨ cell_values rows p n2 a = [] →
       SFdiv 53 1024 (cell_min rows p n2 a) (cell_min rows p n1 a) = nan) ∧
    (cell_values rows p n1 a ≠ [] → cell_values rows p n2 a ≠ [] →
       ∃ t1 t2, is_minimum t1 (cell_values rows p n1 a) ∧
         is_minimum t2 (cell_values rows p n2 a) ∧
         SFdiv 53 1024 (cell_min rows p n2 a) (cell_min rows p n1 a) = SFdiv 53 1024 t2 t1))
    as Hpair.
  { intros n1 n2. split.
    - intros [Hm%cell_min_missing|Hm%cell_min_missing]; rewrite Hm; [apply SFdiv_nan_r|done].
    - intros H1%cell_min_spec H2%cell_min_spec. by eexists _, _. }
  apply elem_of_cons in Hg as [->|Hg].
  - exists 1000, 2000. split; [done|]. apply Hpair.
  - apply list_elem_of_singleton in Hg as ->.
    exists 2000, 5000. split; [done|]. apply Hpair.
Qed.

(** X17: rows of another pattern (such as [sorted]), of another size (such as
    the large sizes) or of another algorithm do not count: [compute_growth]
    gives the same result, or raises the same exception, without them. *)
Theorem compute_growth_scope (rows : list row) :
  compute_growth (filter in_growth_scope rows) = compute_growth rows.
Proof.
  apply compute_growth_ext. intros pattern algo n Hp Ha Hn.
  unfold cell_min. by rewrite cell_values_scope.
Qed.

Section pipeline.
Context {rng : PRNG}.

Lemma cell_values_key rows pattern n algo :
  (pattern, n, algo) ∈ key_of <$> rows → cell_values rows pattern n algo ≠ [].
Proof.
  intros (r & Hk & Hin)%list_elem_of_fmap Hnil.
  unfold cell_values in Hnil. apply fmap_nil_inv in Hnil.
  assert (r ∈ filter (λ r, r_pattern r = pattern ∧ r_n r = n ∧ r_algorithm r = algo) rows)
    as Hr.
  { apply list_elem_of_filter. split; [|done]. by injection Hk as -> -> ->. }
  rewrite Hnil in Hr. by apply elem_of_nil in Hr.
Qed.

(** X18: a run on a valid configuration whose small sizes include 1000, 2000
    and 5000 and whose patterns include random, reversed and nearly_sorted
    returns rows in which every cell of the growth analysis has a
    measurement; [compute_growth] then divides measured minima only. *)
Theorem run_benchmarks_fills_growth_cells (sizes large_sizes : list Z)
    (patterns : list string) (repeats : Z) (w : world) :
  valid_config sizes large_sizes patterns repeats →
  ladder ⊆ sizes → growth_patterns ⊆ patterns →
  ∃ rows w',
    run_benchmarks sizes large_sizes patterns repeats w = Ok (rows, w') ∧
    ∀ pattern algo n, pattern ∈ growth_patterns → algo ∈ growth_algorithms → n ∈ ladder →
      cell_values rows pattern n algo ≠ [].
Proof.
  intros Hv Hs Hp.
  destruct (run_benchmarks_ok sizes large_sizes patterns repeats w Hv) as (rows & w' & Hrun).
  exists rows, w'. split; [done|]. intros pattern algo n Hpat Halgo Hn.
  apply cell_values_key. rewrite (run_benchmarks_keys _ _ _ _ _ _ _ Hrun).
  unfold expected_keys. apply list_elem_of_bind. exists pattern. split; [|by apply Hp].
  apply elem_of_app. left. apply list_elem_of_bind. exists n. split; [|by apply Hs].
  unfold small_keys. apply list_elem_of_fmap. by exists algo.
Qed.

End pipeline.

Lemma run_benchmarks_fills_growth_cells_witness :
  ∃ rows w',
    run_benchmarks (rng := lcg) default_sizes default_large_sizes default_patterns
      default_repeats example_world = Ok (rows, w') ∧
    ∀ pattern algo n, pattern ∈ growth_patterns → algo ∈ growth_algorithms → n ∈ ladder →
      cell_values rows pattern n algo ≠ [].
Proof.
  apply (run_benchmarks_fills_growth_cells (rng := lcg) default_sizes default_large_sizes
           default_patterns default_repeats example_world).
  - split_and!.
    + by apply (bool_decide_unpack _).
    + reflexivity.
    + intros _. by apply (bool_decide_unpack _).
  - intros n Hn. exact Hn.
  - intros p. unfold growth_patterns, default_patterns. rewrite !elem_of_cons, !elem_of_nil.
    tauto.
Defined.

Lemma compute_growth_values_witness :
  ∃ n1 n2, pair_sizes (g_pair example_ratio) = [n1; n2] ∧
    let vals1 :=
      cell_values example_measurements (g_pattern example_ratio) n1 (g_algorithm example_ratio) in
    let vals2 :=
      cell_values example_measurements (g_pattern example_ratio) n2 (g_algorithm example_ratio) in
    (vals1 = [] ∨ vals2 = [] → g_growth example_ratio = nan) ∧
    (vals1 ≠ [] → vals2 ≠ [] →
       ∃ t1 t2, is_minimum t1 vals1 ∧ is_minimum t2 vals2 ∧
         g_growth example_ratio = SFdiv 53 1024 t2 t1).
Proof.
  apply (compute_growth_values example_measurements example_growth example_ratio).
  - vm_compute. reflexivity.
  - vm_compute. right. right. left.
Defined.

(** ** The Koch snowflake *)

Section koch.
Import task_2.

Lemma draw_bind_run {A B} (m : Draw A) (f : A → Draw B) log a log' :
  m log = Returns a log' → (m ≫= f) log = f a log'.
Proof. intros H. unfold mbind, Draw_bind. by rewrite H. Qed.


Lemma invoke_run c log : invoke c log = Returns () (log ++ [c]).
Proof. done. Qed.

Lemma third_run length x log :
  as_float length = Some x →
  third length log = Returns (Float (SFdiv 53 1024 x three)) log.
Proof.
  destruct length as [z|y]; simpl.
  - unfold float_of_int, mbind, Draw_bind.
    destruct (is_infinite (float_of_Z z)); [done|]. by intros [= <-].
  - by intros [= <-].
Qed.

Lemma koch_curve_run depth : ∀ n length x log,
  (n < depth)%nat → as_float length = Some x →
  koch_curve depth (Z.of_nat n) length log = Returns () (log ++ koch_calls n length x).
Proof.
  induction depth as [|depth IH]; intros n length x log Hn Hx; [lia|].
  cbn [koch_curve]. destruct n as [|n].
  - by rewrite bool_decide_true.
  - rewrite bool_decide_false by lia.
    erewrite draw_bind_run by (by apply third_run).
    replace (Z.of_nat (S n) - 1) with (Z.of_nat n) by lia.
    cbn [koch_calls].
    set (x' := SFdiv 53 1024 x three).
    set (side := koch_calls n (Float x') x').
    assert (∀ l, koch_curve depth (Z.of_nat n) (Float x') l = Returns () (l ++ side)) as Hside.
    { intros l. apply IH; [lia|done]. }
    erewrite draw_bind_run by apply Hside.
    erewrite draw_bind_run by apply invoke_run.
    erewrite draw_bind_run by apply Hside.
    erewrite draw_bind_run by apply invoke_run.
    erewrite draw_bind_run by apply Hside.
    erewrite draw_bind_run by apply invoke_run.
    rewrite Hside. f_equal. by rewrite <- !(assoc_L (++)).
Qed.

Lemma segments_app cs1 cs2 : segments (cs1 ++ cs2) = segments cs1 ++ segments cs2.
Proof. induction cs1 as [|[] cs1 IH]; simpl; by rewrite ?IH. Qed.

Lemma turning_app cs1 cs2 : turning (cs1 ++ cs2) = turning cs1 + turning cs2.
Proof. induction cs1 as [|[] cs1 IH]; simpl; lia. Qed.

Lemma iter_third_shift n x :
  Nat.iter n (λ y, SFdiv 53 1024 y three) (SFdiv 53 1024 x three) =
  Nat.iter (S n) (λ y, SFdiv 53 1024 y three) x.
Proof. induction n as [|n IH]; [done|]. simpl in *. by rewrite IH. Qed.

Lemma segment_length_step n x :
  segment_length n (Float (SFdiv 53 1024 x three)) (SFdiv 53 1024 x three) =
  Float (Nat.iter (S n) (λ y, SFdiv 53 1024 y three) x).
Proof.
  destruct n as [|n]; [done|]. unfold segment_length. by rewrite iter_third_shift.
Qed.

Lemma koch_calls_segments n : ∀ length x,
  segments (koch_calls n length x) = replicate (4 ^ n) (segment_length n length x).
Proof.
  induction n as [|n IH]; intros length x; [done|].
  cbn [koch_calls]. rewrite !segments_app. simpl. rewrite !IH.
  rewrite segment_length_step. rewrite <- !replicate_add.
  unfold segment_length. f_equal. lia.
Qed.

Lemma koch_calls_turning n : ∀ length x, turning (koch_calls n length x) = 0.
Proof.
  induction n as [|n IH]; intros length x; [done|].
  cbn [koch_calls]. rewrite !turning_app. simpl. rewrite !IH. lia.
Qed.


Lemma printed_app cs1 cs2 : printed (cs1 ++ cs2) = printed cs1 ++ printed cs2.
Proof. induction cs1 as [|[] cs1 IH]; simpl; by rewrite ?IH. Qed.

Lemma koch_calls_printed n : ∀ len x, printed (koch_calls n len x) = [].
Proof.
  induction n as [|n IH]; intros len x; [done|].
  cbn [koch_calls]. rewrite !printed_app. simpl. by rewrite !IH.
Qed.

Lemma as_float_in_range size :
  in_float_range size → as_float (Int size) = Some (float_of_Z size).
Proof. intros [H _]. simpl. by rewrite H. Qed.

Lemma draw_koch_snowflake_run depth n size log :
  (n < depth)%nat → in_float_range size →
  ∃ cs, draw_koch_snowflake depth (Z.of_nat n) size log = Returns () (log ++ cs) ∧
    segments cs = replicate (3 * 4 ^ n) (segment_length n (Int size) (float_of_Z size)) ∧
    turning cs = -360 ∧ printed cs = [] ∧ last cs = Some screen_mainloop.
Proof.
  intros Hn Hsize. pose proof (as_float_in_range size Hsize) as Hx.
  destruct Hsize as [Hs Hh].
  set (side := koch_calls n (Int size) (float_of_Z size)).
  assert (∀ l, koch_curve depth (Z.of_nat n) (Int size) l = Returns () (l ++ side)) as Hside.
  { intros l. by apply koch_curve_run. }
  unfold draw_koch_snowflake.
  do 7 (erewrite draw_bind_run by apply invoke_run).
  unfold float_of_int, half_of_int. rewrite Hs, Hh.
  erewrite draw_bind_run by done. erewrite draw_bind_run by done.
  do 2 (erewrite draw_bind_run by apply invoke_run).
  cbn [for_range].
  erewrite draw_bind_run; last first.
  { do 3 (erewrite draw_bind_run;
          [|erewrite draw_bind_run by apply Hside; apply invoke_run]).
    done. }
  erewrite draw_bind_run by apply invoke_run. rewrite invoke_run.
  rewrite <- !(assoc_L (++)). eexists. split; [done|].
  split_and!.
  - repeat (rewrite ?segments_app; cbn [segments app]).
    unfold side. rewrite !koch_calls_segments, (right_id_L [] (++)), <- !replicate_add.
    f_equal. lia.
  - repeat (rewrite ?turning_app; cbn [turning app]).
    unfold side. rewrite !koch_calls_turning. done.
  - repeat (rewrite ?printed_app; cbn [printed app]).
    unfold side. by rewrite !koch_calls_printed.
  - rewrite !app_assoc. apply last_snoc.
Qed.





(** X21: for an order from 0 up to the depth the interpreter allows and a
    size in the range of [float], [draw_koch_snowflake] returns after
    drawing [3 * 4 ^ order] segments of one length; its turns add up to one
    full turn clockwise, it prints nothing, and its last call is
    [mainloop]. *)
Theorem draw_koch_snowflake_draws (depth : nat) (order size : Z) (log : list call) :
  0 ≤ order < Z.of_nat depth → in_float_range size →
  ∃ cs, draw_koch_snowflake depth order size log = Returns () (log ++ cs) ∧
    segments cs =
      replicate (3 * 4 ^ Z.to_nat order)
        (segment_length (Z.to_nat order) (Int size) (float_of_Z size)) ∧
    turning cs = -360 ∧ printed cs = [] ∧ last cs = Some screen_mainloop.
Proof.
  intros Horder Hsize.
  destruct (draw_koch_snowflake_run depth (Z.to_nat order) size log) as (cs & Hrun & H);
    [lia|done|].
  exists cs. split; [|done]. by rewrite Z2Nat.id in Hrun by lia.
Qed.

Lemma draw_koch_snowflake_draws_witness :
  ∃ cs, draw_koch_snowflake 8 2 300 [] = Returns () ([] ++ cs) ∧
    segments cs =
      replicate (3 * 4 ^ Z.to_nat 2) (segment_length (Z.to_nat 2) (Int 300) (float_of_Z 300)) ∧
    turning cs = -360 ∧ printed cs = [] ∧ last cs = Some screen_mainloop.
Proof.
  apply (draw_koch_snowflake_draws 8 2 300 []).
  - lia.
  - split; reflexivity.
Defined.



End koch.
